(** * Nuclei PoC screening and de-duplication: a model of
      [Nuclei-PoC_Deduplication.py] and the properties of its pipeline.

    The script reads every template, cuts the request block out of it,
    condenses that block, hashes it with MD5 and then drains the results
    one by one against a set of hashes already seen.  The development
    below follows the script function by function: Python text is a list
    of code points, [process_file] returns an optional record, and the
    body of the drain loop of [main] is a step function on the pair of
    [seen_hashes] and [stats]. *)

From Stdlib Require Import ZArith NArith Strings.String Strings.Ascii List Lia Bool.
From stdpp Require Import gmap list.

#[global] Set Warnings "-clear-no-such-hyp".

Import ListNotations.

(** ** Python text *)

Module PyStr.

(** A Python [str] is a sequence of Unicode code points. *)
Abbreviation char := N (only parsing).
Abbreviation str := (list N) (only parsing).

(** A literal of the script, given by its ASCII spelling. *)
Definition py (s : string) : str :=
  List.map N_of_ascii (list_ascii_of_string s).

(** [str.isspace] on one code point, which is also what [\s] matches in a
    [str] pattern and what [str.strip()] removes. *)
Definition isspace (c : char) : bool :=
  ((9 <=? c) && (c <=? 13) || (28 <=? c) && (c <=? 32)
   || (c =? 133) || (c =? 160) || (c =? 5760)
   || (8192 <=? c) && (c <=? 8202)
   || (c =? 8232) || (c =? 8233) || (c =? 8239) || (c =? 8287)
   || (c =? 12288))%N.

(** The line boundaries of [str.splitlines]. *)
Definition islinebreak (c : char) : bool :=
  ((10 <=? c) && (c <=? 13) || (28 <=? c) && (c <=? 30)
   || (c =? 133) || (c =? 8232) || (c =? 8233))%N.

Definition LF : char := 10%N.
Definition CR : char := 13%N.
Definition HASH : char := 35%N.

(** [s.splitlines()]: the line boundary is dropped, CR LF counts as one
    boundary, and a boundary at the very end opens no further line. *)
Fixpoint splitlines (s : str) : list str :=
  match s with
  | [] => []
  | c :: rest =>
      if islinebreak c then
        match rest with
        | d :: rest' =>
            if (c =? CR)%N && (d =? LF)%N then [] :: splitlines rest'
            else [] :: splitlines rest
        | [] => [[]]
        end
      else
        match splitlines rest with
        | [] => [[c]]
        | l :: ls => (c :: l) :: ls
        end
  end.

Fixpoint lstrip (s : str) : str :=
  match s with
  | c :: rest => if isspace c then lstrip rest else s
  | [] => []
  end.

Definition rstrip (s : str) : str := rev (lstrip (rev s)).

(** [s.strip()] *)
Definition strip (s : str) : str := rstrip (lstrip s).

(** [s.startswith(p)] *)
Fixpoint startswith (p s : str) : bool :=
  match p, s with
  | [], _ => true
  | a :: p', b :: s' => (a =? b)%N && startswith p' s'
  | _ :: _, [] => false
  end.

(** [sep.join(ls)] *)
Fixpoint join (sep : str) (ls : list str) : str :=
  match ls with
  | [] => []
  | [l] => l
  | l :: ls' => l ++ sep ++ join sep ls'
  end.

(** [p in s] for two strings: [p] occurs in [s] as a substring. *)
Fixpoint contains (p s : str) : bool :=
  startswith p s ||
  match s with
  | [] => false
  | _ :: s' => contains p s'
  end.

(** [re.sub(r'\s+', '', s)]: every run of white space is replaced by the
    empty string. *)
Fixpoint sub_spaces (s : str) : str :=
  match s with
  | [] => []
  | c :: rest => if isspace c then sub_spaces rest else c :: sub_spaces rest
  end.

End PyStr.

Import PyStr.

(** ** [str.encode('utf-8')] and [hashlib.md5(...).hexdigest()] *)

Module Hashlib.

Open Scope Z_scope.

(** UTF-8 of one code point.  A surrogate (or a number that is no code
    point at all) cannot be encoded: Python raises [UnicodeEncodeError]. *)
Definition encode_char (c : char) : option (list Z) :=
  let z := Z.of_N c in
  if z <? 0x80 then Some [z]
  else if z <? 0x800 then Some [0xC0 + z / 64; 0x80 + z mod 64]
  else if z <? 0x10000 then
    if (0xD800 <=? z) && (z <=? 0xDFFF) then None
    else Some [0xE0 + z / 4096; 0x80 + (z / 64) mod 64; 0x80 + z mod 64]
  else if z <? 0x110000 then
    Some [0xF0 + z / 262144; 0x80 + (z / 4096) mod 64;
          0x80 + (z / 64) mod 64; 0x80 + z mod 64]
  else None.

Fixpoint encode_utf8 (s : str) : option (list Z) :=
  match s with
  | [] => Some []
  | c :: rest =>
      match encode_char c, encode_utf8 rest with
      | Some bs, Some bs' => Some (bs ++ bs')
      | _, _ => None
      end
  end.

(** MD5 (RFC 1321) on 32-bit words kept in [Z] with the wrap-around
    written out. *)
Definition mask32 (x : Z) : Z := x mod 2 ^ 32.
Definition not32 (x : Z) : Z := Z.lxor x 0xffffffff.
Definition rotl32 (x s : Z) : Z :=
  mask32 (Z.lor (Z.shiftl x s) (Z.shiftr x (32 - s))).

Definition md5_K : list Z :=
  [0xd76aa478; 0xe8c7b756; 0x242070db; 0xc1bdceee;
   0xf57c0faf; 0x4787c62a; 0xa8304613; 0xfd469501;
   0x698098d8; 0x8b44f7af; 0xffff5bb1; 0x895cd7be;
   0x6b901122; 0xfd987193; 0xa679438e; 0x49b40821;
   0xf61e2562; 0xc040b340; 0x265e5a51; 0xe9b6c7aa;
   0xd62f105d; 0x02441453; 0xd8a1e681; 0xe7d3fbc8;
   0x21e1cde6; 0xc33707d6; 0xf4d50d87; 0x455a14ed;
   0xa9e3e905; 0xfcefa3f8; 0x676f02d9; 0x8d2a4c8a;
   0xfffa3942; 0x8771f681; 0x6d9d6122; 0xfde5380c;
   0xa4beea44; 0x4bdecfa9; 0xf6bb4b60; 0xbebfbc70;
   0x289b7ec6; 0xeaa127fa; 0xd4ef3085; 0x04881d05;
   0xd9d4d039; 0xe6db99e5; 0x1fa27cf8; 0xc4ac5665;
   0xf4292244; 0x432aff97; 0xab9423a7; 0xfc93a039;
   0x655b59c3; 0x8f0ccc92; 0xffeff47d; 0x85845dd1;
   0x6fa87e4f; 0xfe2ce6e0; 0xa3014314; 0x4e0811a1;
   0xf7537e82; 0xbd3af235; 0x2ad7d2bb; 0xeb86d391].

Definition md5_S : list Z :=
  [7; 12; 17; 22; 7; 12; 17; 22; 7; 12; 17; 22; 7; 12; 17; 22;
   5; 9; 14; 20; 5; 9; 14; 20; 5; 9; 14; 20; 5; 9; 14; 20;
   4; 11; 16; 23; 4; 11; 16; 23; 4; 11; 16; 23; 4; 11; 16; 23;
   6; 10; 15; 21; 6; 10; 15; 21; 6; 10; 15; 21; 6; 10; 15; 21].

Record md5_state := MkMd5 { md5_a : Z; md5_b : Z; md5_c : Z; md5_d : Z }.

Definition md5_init : md5_state :=
  MkMd5 0x67452301 0xefcdab89 0x98badcfe 0x10325476.

(** The message padded to a multiple of 64 bytes: one 0x80, zeros, and
    the bit length as 8 little-endian bytes. *)
Definition le_bytes (n : nat) (x : Z) : list Z :=
  List.map (fun k => Z.shiftr x (8 * Z.of_nat k) mod 256) (seq 0 n).

Definition md5_pad (msg : list Z) : list Z :=
  let len := Z.of_nat (length msg) in
  let zeros := Z.to_nat ((55 - len) mod 64) in
  msg ++ [0x80] ++ repeat 0 zeros ++ le_bytes 8 ((8 * len) mod 2 ^ 64).

Definition le_word (bs : list Z) : Z :=
  fold_right (fun b acc => b + 256 * acc) 0 bs.

Fixpoint words_of (n : nat) (bs : list Z) : list Z :=
  match n with
  | O => []
  | S n' => le_word (firstn 4 bs) :: words_of n' (skipn 4 bs)
  end.

Definition md5_step (M : list Z) (st : md5_state) (iks : Z * (Z * Z)) : md5_state :=
  let '(i, (k, s)) := iks in
  let '(MkMd5 a b c d) := st in
  let '(f, g) :=
    if i <? 16 then (Z.lor (Z.land b c) (Z.land (not32 b) d), i)
    else if i <? 32 then (Z.lor (Z.land d b) (Z.land (not32 d) c), (5 * i + 1) mod 16)
    else if i <? 48 then (Z.lxor (Z.lxor b c) d, (3 * i + 5) mod 16)
    else (Z.lxor c (Z.lor b (not32 d)), (7 * i) mod 16) in
  let f' := mask32 (f + a + k + nth (Z.to_nat g) M 0) in
  MkMd5 d (mask32 (b + rotl32 f' s)) b c.

Definition md5_block (st : md5_state) (block : list Z) : md5_state :=
  let M := words_of 16 block in
  let rounds := combine (List.map Z.of_nat (seq 0 64)) (combine md5_K md5_S) in
  let st' := fold_left (md5_step M) rounds st in
  MkMd5 (mask32 (md5_a st + md5_a st')) (mask32 (md5_b st + md5_b st'))
        (mask32 (md5_c st + md5_c st')) (mask32 (md5_d st + md5_d st')).

Fixpoint md5_blocks (n : nat) (st : md5_state) (bs : list Z) : md5_state :=
  match n with
  | O => st
  | S n' => md5_blocks n' (md5_block st (firstn 64 bs)) (skipn 64 bs)
  end.

(** [hashlib.md5(msg).digest()] *)
Definition md5_digest (msg : list Z) : list Z :=
  let padded := md5_pad msg in
  let st := md5_blocks (length padded / 64) md5_init padded in
  le_bytes 4 (md5_a st) ++ le_bytes 4 (md5_b st) ++
  le_bytes 4 (md5_c st) ++ le_bytes 4 (md5_d st).

Definition hexdigit (n : Z) : char :=
  if n <? 10 then Z.to_N (48 + n) else Z.to_N (87 + n).

Definition hex_of_byte (b : Z) : str :=
  [hexdigit (b / 16 mod 16); hexdigit (b mod 16)].

(** [hashlib.md5(msg).hexdigest()] *)
Definition md5_hexdigest (msg : list Z) : str :=
  flat_map hex_of_byte (md5_digest msg).

Close Scope Z_scope.

End Hashlib.

Import Hashlib.

(** ** The two regular expressions of [process_file] *)

Module Re.

(** [re.search(r'^(requests|http):', content, re.MULTILINE)].  With
    [re.MULTILINE] the anchor holds at offset 0 and right after every
    LF; [bol] says whether the current offset [i] is such a place.  The
    result is [match.start()]. *)
Definition req_here (s : str) : bool :=
  startswith (py "requests:") s || startswith (py "http:") s.

Fixpoint search_req_from (bol : bool) (i : nat) (s : str) : option nat :=
  if bol && req_here s then Some i
  else match s with
       | [] => None
       | c :: rest => search_req_from (c =? LF)%N (S i) rest
       end.

Definition search_req (content : str) : option nat :=
  search_req_from true 0 content.

(** A greedy [p*] followed by the rest [k] of the pattern: the engine
    first takes one more character and comes back to stop here only when
    the rest of the pattern fails further on. *)
Fixpoint star_then {A} (p : char -> bool) (k : str -> option A) (s : str)
  : option A :=
  match s with
  | c :: rest =>
      if p c then
        match star_then p k rest with
        | Some r => Some r
        | None => k s
        end
      else k s
  | [] => k s
  end.

(** A literal followed by the rest of the pattern. *)
Definition lit_then {A} (lit : str) (k : str -> option A) (s : str) : option A :=
  if startswith lit s then k (skipn (length lit) s) else None.

(** The longest prefix whose characters satisfy [p]. *)
Fixpoint take_while (p : char -> bool) (s : str) : str :=
  match s with
  | c :: rest => if p c then c :: take_while p rest else []
  | [] => []
  end.

Section Word.

(** [\w] of a [str] pattern is read from the Unicode database
    (alphanumeric, or the underscore); the table is a parameter. *)
Variable isword : char -> bool.

(** [(\w+)] at the end of the pattern: greedy, at least one character;
    the value is the text of group 1. *)
Definition word_group (s : str) : option str :=
  match take_while isword s with
  | [] => None
  | g => Some g
  end.

(** [\s*severity:\s*(\w+)] tried at one offset. *)
Definition sev_here (s : str) : option str :=
  star_then isspace (lit_then (py "severity:") (star_then isspace word_group)) s.

(** [re.search(r'^\s*severity:\s*(\w+)', content, re.MULTILINE)], as
    [match.group(1)] of the leftmost match. *)
Fixpoint search_sev_from (bol : bool) (s : str) : option str :=
  match (if bol then sev_here s else None) with
  | Some g => Some g
  | None =>
      match s with
      | [] => None
      | c :: rest => search_sev_from (c =? LF)%N rest
      end
  end.

Definition search_sev (content : str) : option str :=
  search_sev_from true content.

End Word.

End Re.

Import Re.

(** ** [os.path] on POSIX *)

Module OsPath.

Definition SLASH : char := 47%N.

(** [os.path.basename(p)]: what follows the last slash. *)
Fixpoint basename (p : str) : str :=
  match p with
  | [] => []
  | c :: rest =>
      if existsb (N.eqb SLASH) rest then basename rest
      else if (c =? SLASH)%N then rest else p
  end.

(** [os.path.join(a, b)] *)
Definition path_join (a b : str) : str :=
  if startswith [SLASH] b then b
  else if match rev a with [] => true | c :: _ => (c =? SLASH)%N end
       then a ++ b
       else a ++ [SLASH] ++ b.

End OsPath.

Import OsPath.

(** ** [process_file] *)

Module Evaluator.

(** The dictionary [result]. *)
Record result := MkResult {
  path : str;
  filename : str;
  hash : option str;
  severity : str;
  skip_keyword : bool
}.

Definition primary_keywords : list str :=
  [py "HTTP"; py "GET"; py "POST"; py "PUT"; py "BaseURL"].
Definition secondary_keywords : list str :=
  [py "/readme.txt"; py "/style.css"].

(** The condition of the [if] inside the loop over the lines. *)
Definition keyword_line (line : str) : bool :=
  existsb (fun p_kw => contains p_kw line) primary_keywords
  && existsb (fun s_kw => contains s_kw line) secondary_keywords.

(** The loop [for line in content.splitlines(): ... break]: the value of
    [skip_keyword] when the loop is left, and the number of lines the
    loop has looked at. *)
Fixpoint keyword_loop (lines : list str) : bool * nat :=
  match lines with
  | [] => (false, 0)
  | line :: rest =>
      if keyword_line line then (true, 1)
      else let '(flag, n) := keyword_loop rest in (flag, S n)
  end.

(** Lines 51 and 52: the comment lines are dropped, the others joined
    with LF, and all white space removed. *)
Definition is_comment (line : str) : bool := startswith [HASH] (strip line).

Definition cleaned_lines (request_block_raw : str) : list str :=
  List.filter (fun line => negb (is_comment line)) (splitlines request_block_raw).

Definition condensed_content (request_block_raw : str) : str :=
  sub_spaces (join [LF] (cleaned_lines request_block_raw)).

Section Unicode.

Variable isword : char -> bool.
(** [str.lower] *)
Variable lower : str -> str.

(** [process_file(file_path, ...)].  [read] is what [f.read()] gave, or
    [None] when opening, reading or decoding raised.  Every exception
    ends in the [except] branch, which logs, may copy the file to the
    error directory, and returns [None]; only the returned value is
    kept here. *)
Definition process_file (file_path : str) (read : option str) : option result :=
  match read with
  | None => None
  | Some content =>
      match search_req content with
      | Some start =>
          let request_block_raw := skipn start content in
          match encode_utf8 (condensed_content request_block_raw) with
          | Some bytes =>
              let severity :=
                match search_sev isword content with
                | Some g => lower g
                | None => py "unknown"
                end in
              Some {| path := file_path;
                      filename := basename file_path;
                      hash := Some (md5_hexdigest bytes);
                      severity := severity;
                      skip_keyword := fst (keyword_loop (splitlines content)) |}
          | None => None
          end
      | None => None
      end
  end.

End Unicode.

End Evaluator.

Import Evaluator.

(** ** The drain loop of [main] *)

Module Coordinator.

(** The dictionary [stats]. *)
Record stats := MkStats {
  copied : nat;
  duplicate : nat;
  severity_skipped : nat;
  keyword_skipped : nat;
  error : nat
}.

(** What the loop body changes: [seen_hashes], [stats], and the calls of
    [shutil.copy2] made so far (source and destination, latest first). *)
Record state := MkState {
  seen_hashes : gset (option str);
  counters : stats;
  copy_log : list (str * str)
}.

Definition initial : state :=
  MkState ∅ (MkStats 0 0 0 0 0) [].

(** The branch of the loop body taken for one result. *)
Inductive outcome :=
  | Error | Duplicate | SeveritySkipped | KeywordSkipped | Copied.

Section Args.

(** [args.exclude_severity] and [args.output] *)
Variable exclude_severity : list str.
Variable output : str.

(** One iteration of [for future in as_completed(...)], on
    [future.result()]. *)
Definition drain_step (s : state) (res : option result) : state * outcome :=
  let st := counters s in
  match res with
  | None =>
      (MkState (seen_hashes s)
         (MkStats (copied st) (duplicate st) (severity_skipped st)
            (keyword_skipped st) (S (error st)))
         (copy_log s), Error)
  | Some r =>
      if bool_decide (hash r ∈ seen_hashes s) then
        (MkState (seen_hashes s)
           (MkStats (copied st) (S (duplicate st)) (severity_skipped st)
              (keyword_skipped st) (error st))
           (copy_log s), Duplicate)
      else if bool_decide (severity r ∈ exclude_severity) then
        (MkState (seen_hashes s)
           (MkStats (copied st) (duplicate st) (S (severity_skipped st))
              (keyword_skipped st) (error st))
           (copy_log s), SeveritySkipped)
      else if skip_keyword r then
        (MkState (seen_hashes s)
           (MkStats (copied st) (duplicate st) (severity_skipped st)
              (S (keyword_skipped st)) (error st))
           (copy_log s), KeywordSkipped)
      else
        (MkState ({[ hash r ]} ∪ seen_hashes s)
           (MkStats (S (copied st)) (duplicate st) (severity_skipped st)
              (keyword_skipped st) (error st))
           ((path r, path_join output (filename r)) :: copy_log s), Copied)
  end.

(** The whole loop over the results in the order they complete, with the
    branch taken at each iteration. *)
Fixpoint drain (s : state) (results : list (option result))
  : state * list outcome :=
  match results with
  | [] => (s, [])
  | res :: rest =>
      let '(s', o) := drain_step s res in
      let '(s'', os) := drain s' rest in
      (s'', o :: os)
  end.

(** The loop as [main] runs it: from the empty set and zeroed counters. *)
Definition run (results : list (option result)) : state :=
  fst (drain initial results).

End Args.

End Coordinator.

Import Coordinator.

(** ** Properties of the drain loop *)

Module CoordinatorSpec.

(** The sum of the five counters. *)
Definition total (st : stats) : nat :=
  copied st + duplicate st + severity_skipped st + keyword_skipped st + error st.

(** A result that passes both filters of the loop body. *)
Definition eligible (exclude_severity : list str) (r : result) : bool :=
  negb (bool_decide (severity r ∈ exclude_severity)) && negb (skip_keyword r).

(** The hashes of the results whose iteration took the copying branch,
    in the order of the iterations: these are the arguments of
    [seen_hashes.add]. *)
Fixpoint added_hashes (results : list (option result)) (os : list outcome)
  : list (option str) :=
  match results, os with
  | Some r :: results', Copied :: os' => hash r :: added_hashes results' os'
  | _ :: results', _ :: os' => added_hashes results' os'
  | _, _ => []
  end.

(** How many files with fingerprint [h] were copied in a run. *)
Definition group_copies (h : option str) (results : list (option result))
    (os : list outcome) : nat :=
  length (List.filter (fun x => bool_decide (x = h)) (added_hashes results os)).

(** The hashes of the results that pass both filters. *)
Definition eligible_hashes (exclude_severity : list str)
    (results : list (option result)) : list (option str) :=
  omap (fun res => match res with
                   | Some r => if eligible exclude_severity r then Some (hash r) else None
                   | None => None
                   end) results.

Definition failures (results : list (option result)) : nat :=
  length (List.filter (fun res => match res with None => true | Some _ => false end) results).

End CoordinatorSpec.

Import CoordinatorSpec.

(** ** Sample inputs *)

Module Samples.

(** [\w] and [str.lower] on ASCII text, where they need no table. *)
Definition isword_ascii (c : char) : bool :=
  ((48 <=? c) && (c <=? 57) || (65 <=? c) && (c <=? 90)
   || (97 <=? c) && (c <=? 122) || (c =? 95))%N.

Definition lower_ascii (s : str) : str :=
  List.map (fun c => if ((65 <=? c) && (c <=? 90))%N then (c + 32)%N else c) s.

(** A file given line by line, each line ended by LF. *)
Definition text (ls : list string) : str :=
  List.concat (List.map (fun l => py l ++ [LF]) ls).

Definition evaluate (file_path : string) (content : str) : option result :=
  process_file isword_ascii lower_ascii (py file_path) (Some content).

#[local] Open Scope string_scope.

(** Two templates with the same request block, one of severity [info]
    and one of severity [high], a third with another block, one that
    probes a static asset and one without a request block. *)
Definition login_a_text : str :=
  text ["id: login-a"; "info:"; "  severity: info"; "http:"; "  - path: /login"].

Definition login_b_text : str :=
  text ["id: login-b"; "info:"; "  severity: High"; "http:"; "  # same request";
        "  - path:   /login"].

Definition admin_text : str :=
  text ["id: admin"; "info:"; "  severity: critical"; "requests:"; "  - path: /admin"].

Definition static_text : str :=
  text ["id: static"; "info:"; "  severity: low"; "http:";
        "  - raw: GET /readme.txt HTTP/1.1"].

Definition notes_text : str :=
  text ["id: notes"; "  http: indented"; "info: requests: none"].

(** The first template again, with a comment line, deeper indentation
    and an empty line at the end. *)
Definition login_c_text : str :=
  text ["id: login-c"; "info:"; "  severity: medium"; "http:"; "  # same request";
        "      - path: /login"; ""].

(** A template with a [#] in the middle of a line, and the same text with
    a line break put before that [#]. *)
Definition inline_text : str :=
  text ["id: probe"; "http:"; "  - path: /a #x"].

Definition broken_text : str :=
  text ["id: probe"; "http:"; "  - path: /a "; "#x"].

Definition poc_info : option result := evaluate "/poc/a/login.yaml" login_a_text.
Definition poc_high : option result := evaluate "/poc/b/login.yaml" login_b_text.
Definition poc_other : option result := evaluate "/poc/c/admin.yaml" admin_text.
Definition poc_static : option result := evaluate "/poc/d/static.yaml" static_text.
Definition poc_nosig : option result := evaluate "/poc/e/notes.yaml" notes_text.

(** What [process_file] returns for the first of them. *)
Definition login_info : result :=
  MkResult (py "/poc/a/login.yaml") (py "login.yaml")
    (Some (py "6530b352607e6f27bffe98fcf3dc1cbb")) (py "info") false.

Definition login_medium : result :=
  MkResult (py "/poc/f/login.yaml") (py "login.yaml")
    (Some (py "6530b352607e6f27bffe98fcf3dc1cbb")) (py "medium") false.

Definition inline_result : result :=
  MkResult (py "/poc/g/probe.yaml") (py "probe.yaml")
    (Some (py "260be2e2dbf66b2115c8fd2545ee13a9")) (py "unknown") false.

Definition broken_result : result :=
  MkResult (py "/poc/h/probe.yaml") (py "probe.yaml")
    (Some (py "bbbd746b2cf1458a7fc40876f5ff2724")) (py "unknown") false.

Definition login_high : result :=
  MkResult (py "/poc/b/login.yaml") (py "login.yaml")
    (Some (py "6530b352607e6f27bffe98fcf3dc1cbb")) (py "high") false.

Definition static_low : result :=
  MkResult (py "/poc/d/static.yaml") (py "static.yaml")
    (Some (py "16b7f9abe0a8fe755d3f2fc3f89c6d1e")) (py "low") true.

End Samples.

Import Samples.

Module DrainSpec.

(** The counter that belongs to a branch, incremented. *)
Definition bump (o : outcome) (st : stats) : stats :=
  match o with
  | Error =>
      MkStats (copied st) (duplicate st) (severity_skipped st) (keyword_skipped st)
        (S (error st))
  | Duplicate =>
      MkStats (copied st) (S (duplicate st)) (severity_skipped st) (keyword_skipped st)
        (error st)
  | SeveritySkipped =>
      MkStats (copied st) (duplicate st) (S (severity_skipped st)) (keyword_skipped st)
        (error st)
  | KeywordSkipped =>
      MkStats (copied st) (duplicate st) (severity_skipped st) (S (keyword_skipped st))
        (error st)
  | Copied =>
      MkStats (S (copied st)) (duplicate st) (severity_skipped st) (keyword_skipped st)
        (error st)
  end.

(** The precedence of the five outcomes as the specification lists it:
    (a) failure or skip, (b) fingerprint already seen, (c) severity
    excluded, (d) keyword flag, (e) otherwise copy. *)
Definition precedence (exclude_severity : list str) (seen : gset (option str))
    (res : option result) : outcome :=
  match res with
  | None => Error
  | Some r =>
      if decide (hash r ∈ seen) then Duplicate
      else if decide (severity r ∈ exclude_severity) then SeveritySkipped
      else if decide (skip_keyword r = true) then KeywordSkipped
      else Copied
  end.

End DrainSpec.

Import DrainSpec.

Module Claims.

(** The reading of C4 as it is worded: whenever some result of the run
    carries the fingerprint [h], exactly one file with that fingerprint
    is copied. *)
Definition one_copy_per_group (excl : list str) (out : str)
    (results : list (option result)) : Prop :=
  ∀ h, (∃ r, Some r ∈ results ∧ hash r = h) →
       group_copies h results (snd (drain excl out initial results)) = 1.

(** The reading of C8 as it is worded: the five counters at the end do
    not depend on the order in which the results are drained. *)
Definition counts_order_independent (excl : list str) (out : str)
    (results : list (option result)) : Prop :=
  ∀ results', results ≡ₚ results' →
     counters (run excl out results') = counters (run excl out results).

End Claims.

Import Claims.

(** ** The keyword scan *)

Module KeywordSpec.

(** [p] occurs in [line]. *)
Definition occurs_in (p line : str) : Prop := ∃ pre post, line = pre ++ p ++ post.

(** A line that holds a primary and a secondary keyword at once. *)
Definition co_occurrence (line : str) : Prop :=
  (∃ p_kw, p_kw ∈ primary_keywords ∧ occurs_in p_kw line)
  ∧ (∃ s_kw, s_kw ∈ secondary_keywords ∧ occurs_in s_kw line).

End KeywordSpec.

Import KeywordSpec.

(** ** The fingerprint of a result *)

Module DigestSpec.

(** One of [0-9a-f]. *)
Definition is_lower_hex (c : char) : bool :=
  ((48 <=? c) && (c <=? 57) || (97 <=? c) && (c <=? 102))%N.

End DigestSpec.

Import DigestSpec.

(** ** The condensed request block *)

Module NormalSpec.

(** What one line gives to the condensed block: nothing when it is a
    comment line, its text without white space otherwise. *)
Definition keep_line (l : str) : str :=
  if is_comment l then [] else sub_spaces l.

(** The condensed block read off the text in one pass, [cur] being the
    part of the current line read so far. *)
Fixpoint scan (cur : str) (s : str) : str :=
  match s with
  | [] => keep_line cur
  | c :: rest =>
      if islinebreak c then keep_line cur ++ scan [] rest
      else scan (cur ++ [c]) rest
  end.

(** The text of [s] after its last line boundary, continuing [cur]. *)
Definition line_tail_from (cur s : str) : str :=
  fold_left (fun cur c => if islinebreak c then [] else cur ++ [c]) s cur.

Definition line_tail (s : str) : str := line_tail_from [] s.

(** The text of [s] up to its first line boundary. *)
Definition line_head (s : str) : str :=
  take_while (fun c => negb (islinebreak c)) s.

(** The NormalizedSignature in the words of the specification: the
    lines whose trimmed form begins with [#] are removed, the remaining
    lines are put together and every white-space character is deleted. *)
Definition normalized_signature (block : str) : str :=
  List.filter (fun c => negb (isspace c))
    (List.concat
       (List.filter (fun l => negb (startswith [HASH] (strip l))) (splitlines block))).

End NormalSpec.

Import NormalSpec.

(** ** Request blocks that differ in comments, indentation or line breaks *)

Module DifferSpec.

(** [pre] ends where a line starts. *)
Definition at_line_start (pre : str) : Prop := line_tail pre = [].

Definition no_break (s : str) : bool :=
  forallb (fun c => negb (islinebreak c)) s.

(** White space that stays within a line. *)
Definition indentation (w : str) : bool :=
  forallb (fun c => isspace c && negb (islinebreak c)) w.

(** Two request blocks that differ only in comment lines, indentation
    or line breaks: the least equivalence that relates a block to the
    block with one more comment line, with more indentation at the start
    of a line, or with one more line break at a place that [break_ok]
    admits. *)
Inductive differ (break_ok : str → str → Prop) : str → str → Prop :=
  | differ_refl s : differ break_ok s s
  | differ_sym a b : differ break_ok a b → differ break_ok b a
  | differ_trans a b c :
      differ break_ok a b → differ break_ok b c → differ break_ok a c
  | differ_comment pre c post :
      at_line_start pre → no_break c = true → is_comment c = true →
      differ break_ok (pre ++ post) (pre ++ c ++ [LF] ++ post)
  | differ_indent pre w post :
      at_line_start pre → indentation w = true →
      differ break_ok (pre ++ post) (pre ++ w ++ post)
  | differ_break pre b post :
      islinebreak b = true → break_ok pre post →
      differ break_ok (pre ++ post) (pre ++ [b] ++ post).

(** Any place will do for a line break. *)
Definition any_break (pre post : str) : Prop := True.

(** A line break between [pre] and [post] that leaves the comment lines
    as they are: what follows it on the line is blank, or is on a comment
    line with the break exactly when it is without. *)
Definition break_keeps_comments (pre post : str) : Prop :=
  sub_spaces (line_head post) = []
  ∨ is_comment (line_head post) = is_comment (line_tail pre ++ line_head post).

(** The reading of C3: two files whose request blocks differ only in
    these ways get the same fingerprint. *)
Definition fingerprints_agree (break_ok : str → str → Prop) : Prop :=
  ∀ isword lower pa pb ca cb ia ib ra rb,
    search_req ca = Some ia → search_req cb = Some ib →
    differ break_ok (skipn ia ca) (skipn ib cb) →
    process_file isword lower pa (Some ca) = Some ra →
    process_file isword lower pb (Some cb) = Some rb →
    hash ra = hash rb.

End DifferSpec.

Import DifferSpec.

(** ** The request block of a file *)

Module SignatureSpec.

(** The text before an offset at which [^] holds in multiline mode. *)
Definition at_bol (pre : str) : Prop := pre = [] ∨ ∃ pre', pre = pre' ++ [LF].

(** A text that begins with one of the two keywords and a colon. *)
Definition declares_protocol (blk : str) : Prop :=
  ∃ t, blk = py "requests:" ++ t ∨ blk = py "http:" ++ t.

(** [^(requests|http):] matches in [content] at offset [i]. *)
Definition req_match (content : str) (i : nat) : Prop :=
  ∃ pre blk, content = pre ++ blk ∧ length pre = i ∧ at_bol pre
             ∧ declares_protocol blk.

(** The code points a decoded file can hold: no surrogates, nothing
    above U+10FFFF. *)
Definition is_scalar (c : char) : bool :=
  ((c <? 0xD800) || (0xDFFF <? c) && (c <? 0x110000))%N.

Definition ends_line (pre : str) : bool :=
  match rev pre with
  | [] => true
  | c :: _ => (c =? LF)%N
  end.

End SignatureSpec.

Import SignatureSpec.

(** ** The severity of a file *)

Module SeveritySpec.

Section Word.

Variable isword : char → bool.

(** [\s*severity:\s*(\w+)] matches at the start of [s] with [g] as the
    text of group 1: white space, the keyword, white space, and then the
    longest run of word characters, which is not empty. *)
Definition sev_match_at (s g : str) : Prop :=
  ∃ ws1 ws2 rest,
    s = ws1 ++ py "severity:" ++ ws2 ++ g ++ rest
    ∧ forallb isspace ws1 = true
    ∧ forallb isspace ws2 = true
    ∧ g ≠ []
    ∧ forallb isword g = true
    ∧ match rest with [] => True | c :: _ => isword c = false end.

(** [^\s*severity:\s*(\w+)] matches in [content] at offset [i], in
    multiline mode, with [g] as the text of group 1. *)
Definition sev_match (content : str) (i : nat) (g : str) : Prop :=
  ∃ pre blk, content = pre ++ blk ∧ length pre = i ∧ at_bol pre
             ∧ sev_match_at blk g.

End Word.

End SeveritySpec.

Import SeveritySpec.

(** * Further properties of the script *)

(** ** The drain loop over a whole run *)

Module RunSpec.

(** The calls of [shutil.copy2] that a run makes, in the order of the
    iterations: source and destination. *)
Fixpoint copies_of (output : str) (results : list (option result))
    (os : list outcome) : list (str * str) :=
  match results, os with
  | Some r :: results', Copied :: os' =>
      (path r, path_join output (filename r)) :: copies_of output results' os'
  | _ :: results', _ :: os' => copies_of output results' os'
  | _, _ => []
  end.

End RunSpec.

Import RunSpec.

(** ** The string that is hashed *)

Module CondensedSpec.

(** The text with every LF replaced by CR LF. *)
Definition crlf (s : str) : str :=
  flat_map (fun c => if (c =? LF)%N then [CR; LF] else [c]) s.

End CondensedSpec.

Import CondensedSpec.

(** ** Collecting the files *)

Module Collect.

(** [s.endswith(suffix)] *)
Definition endswith (suffix s : str) : bool := startswith (rev suffix) (rev s).

(** [filename.endswith((".yaml", ".yml"))] *)
Definition is_template (filename : str) : bool :=
  endswith (py ".yaml") filename || endswith (py ".yml") filename.

(** The loop over [os.walk(args.source)]: [walk] is what [os.walk]
    yields, a directory with the names of its sub-directories and of its
    files; the value is [all_files]. *)
Definition collect (walk : list (str * list str * list str)) : list str :=
  flat_map (fun '(root, _, files) =>
              List.map (path_join root) (List.filter is_template files)) walk.

(** A name as [os.walk] lists it: one path component. *)
Definition no_slash (name : str) : bool := negb (existsb (N.eqb SLASH) name).

End Collect.

Import Collect.

(** ** Reading a file *)

Module FileIO.

Open Scope Z_scope.

(** A continuation byte. *)
Definition cont (b : Z) : bool := (0x80 <=? b) && (b <=? 0xBF).

(** The second byte of a three-byte and of a four-byte sequence: no
    overlong forms, no surrogates, nothing above U+10FFFF. *)
Definition second3 (b0 b1 : Z) : bool :=
  if b0 =? 0xE0 then (0xA0 <=? b1) && (b1 <=? 0xBF)
  else if b0 =? 0xED then (0x80 <=? b1) && (b1 <=? 0x9F)
  else cont b1.

Definition second4 (b0 b1 : Z) : bool :=
  if b0 =? 0xF0 then (0x90 <=? b1) && (b1 <=? 0xBF)
  else if b0 =? 0xF4 then (0x80 <=? b1) && (b1 <=? 0x8F)
  else cont b1.

Definition cons_char (z : Z) (rest : option str) : option str :=
  match rest with
  | Some s => Some (Z.to_N z :: s)
  | None => None
  end.

(** The strict UTF-8 decoder of [open(..., encoding='utf-8')]; [None]
    stands for [UnicodeDecodeError]. *)
Fixpoint decode_utf8 (bs : list Z) : option str :=
  match bs with
  | [] => Some []
  | b0 :: t0 =>
      if (0 <=? b0) && (b0 <? 0x80) then cons_char b0 (decode_utf8 t0)
      else
        match t0 with
        | [] => None
        | b1 :: t1 =>
            if (0xC2 <=? b0) && (b0 <=? 0xDF) then
              if cont b1
              then cons_char ((b0 - 0xC0) * 64 + (b1 - 0x80)) (decode_utf8 t1)
              else None
            else
              match t1 with
              | [] => None
              | b2 :: t2 =>
                  if (0xE0 <=? b0) && (b0 <=? 0xEF) then
                    if second3 b0 b1 && cont b2
                    then cons_char ((b0 - 0xE0) * 4096 + (b1 - 0x80) * 64 + (b2 - 0x80))
                           (decode_utf8 t2)
                    else None
                  else
                    match t2 with
                    | [] => None
                    | b3 :: t3 =>
                        if (0xF0 <=? b0) && (b0 <=? 0xF4) then
                          if second4 b0 b1 && cont b2 && cont b3
                          then cons_char ((b0 - 0xF0) * 262144 + (b1 - 0x80) * 4096
                                          + (b2 - 0x80) * 64 + (b3 - 0x80))
                                 (decode_utf8 t3)
                          else None
                        else None
                    end
              end
        end
  end.

Close Scope Z_scope.

(** Universal newlines, the default of [open] in text mode: CR LF and a
    lone CR are read as LF. *)
Fixpoint translate_newlines (s : str) : str :=
  match s with
  | [] => []
  | c :: rest =>
      if (c =? CR)%N then
        LF :: match rest with
              | d :: rest' =>
                  if (d =? LF)%N then translate_newlines rest'
                  else translate_newlines rest
              | [] => []
              end
      else c :: translate_newlines rest
  end.

(** [open(file_path, 'r', encoding='utf-8')] followed by [f.read()] on
    the bytes of the file; [None] for a file that cannot be opened or
    read, and for bytes that are not UTF-8. *)
Definition open_read (file : option (list Z)) : option str :=
  match file with
  | None => None
  | Some bs => option_map translate_newlines (decode_utf8 bs)
  end.

End FileIO.

Import FileIO.

(** ** The effects of [process_file] and the whole of [main] *)

Module Effects.

(** What [process_file] does besides returning: the two calls of
    [logger.error] and the copy into the error directory. *)
Inductive event :=
  | LogFailure (file_path : str)
  | ArchiveCopy (src dst : str)
  | LogArchiveFailure (file_path : str).

(** How the [try] block ends: with a [return], or with an exception. *)
Inductive tried :=
  | Returned (res : option result)
  | Raised.

Section Unicode.

Variable isword : char → bool.
Variable lower : str → str.

(** The [try] block of [process_file]. *)
Definition try_body (file_path : str) (read : option str) : tried :=
  match read with
  | None => Raised
  | Some content =>
      match search_req content with
      | Some start =>
          let request_block_raw := skipn start content in
          match encode_utf8 (condensed_content request_block_raw) with
          | Some bytes =>
              let severity :=
                match search_sev isword content with
                | Some g => lower g
                | None => py "unknown"
                end in
              Returned (Some {| path := file_path;
                                filename := basename file_path;
                                hash := Some (md5_hexdigest bytes);
                                severity := severity;
                                skip_keyword := fst (keyword_loop (splitlines content)) |})
          | None => Raised
          end
      | None => Returned None
      end
  end.

(** [process_file(file_path, collect_errors_flag, error_dir)] with its
    [except] branch: the failure is logged, and with the flag set the
    file is copied into the error directory; [archive_ok] says whether
    that copy succeeds, its failure being logged as well. *)
Definition process_file_io (file_path : str) (collect_errors_flag : bool)
    (error_dir : str) (read : option str) (archive_ok : bool)
  : option result * list event :=
  match try_body file_path read with
  | Returned res => (res, [])
  | Raised =>
      (None,
       LogFailure file_path ::
       (if collect_errors_flag then
          if archive_ok
          then [ArchiveCopy file_path (path_join error_dir (basename file_path))]
          else [LogArchiveFailure file_path]
        else []))
  end.

(** [args] *)
Record args := MkArgs {
  source : str;
  output : str;
  exclude_severity : list str;
  workers : Z;
  collect_errors : bool
}.

(** How [main] ends: with the early [return] when no file was found,
    with the [ValueError] of a pool of no workers, or after the loop
    with the final set and counters. *)
Inductive main_outcome :=
  | NoFiles
  | PoolError
  | Finished (s : state).

(** [error_dir], with [script_dir] the directory of the script. *)
Definition error_dir_of (a : args) (script_dir : str) : str :=
  if collect_errors a then path_join script_dir (py "error_files") else [].

(** [main(args)].  [walk] is what [os.walk(args.source)] yields, [fs] the
    bytes of each file (or nothing for a file that cannot be read),
    [schedule] the order in which the futures complete.  Creating the
    directories and copying a kept file are taken to succeed. *)
Definition main (a : args) (script_dir : str)
    (walk : list (str * list str * list str))
    (fs : str → option (list Z)) (archive_ok : str → bool)
    (schedule : list str → list str) : main_outcome * list event :=
  let all_files := collect walk in
  match all_files with
  | [] => (NoFiles, [])
  | _ :: _ =>
      if (workers a <=? 0)%Z then (PoolError, [])
      else
        let outs :=
          List.map (fun f => process_file_io f (collect_errors a)
                               (error_dir_of a script_dir) (open_read (fs f))
                               (archive_ok f))
            (schedule all_files) in
        (Finished (run (exclude_severity a) (output a) (List.map fst outs)),
         List.concat (List.map snd outs))
  end.

End Unicode.

(** The files of [paths] that cannot be read, and those that can be read
    but hold no request block. *)
Definition unreadable (fs : str → option (list Z)) (paths : list str) : nat :=
  length (List.filter (fun f => match open_read (fs f) with
                                | None => true
                                | Some _ => false
                                end) paths).

Definition without_block (fs : str → option (list Z)) (paths : list str) : nat :=
  length (List.filter (fun f => match open_read (fs f) with
                                | Some content =>
                                    match search_req content with
                                    | None => true
                                    | Some _ => false
                                    end
                                | None => false
                                end) paths).

Definition is_log_failure (e : event) : bool :=
  match e with LogFailure _ => true | _ => false end.

End Effects.

Import Effects.

Module MainSample.

Definition sample_args : args :=
  MkArgs (py "/poc") (py "/kept") [py "info"] 4 true.

Definition sample_walk : list (str * list str * list str) :=
  [(py "/poc", [py "old"], [py "a.yaml"; py "b.yml"; py "c.txt"])].

(** [/poc/a.yaml] holds the single line [http:]; nothing else can be read. *)
Definition sample_fs (file_path : str) : option (list Z) :=
  if decide (file_path = py "/poc/a.yaml")
  then Some [0x68; 0x74; 0x74; 0x70; 0x3A; 0x0A]%Z
  else None.

Definition sample_outs : list (option result * list event) :=
  List.map (fun f => process_file_io isword_ascii lower_ascii f true
                       (py "/opt/tool/error_files") (open_read (sample_fs f)) true)
    [py "/poc/b.yml"; py "/poc/a.yaml"].

End MainSample.

Import MainSample.

(** * Examples, lemmas and theorems *)

Example md5_empty : md5_hexdigest [] = py "d41d8cd98f00b204e9800998ecf8427e".
Proof. vm_compute. reflexivity. Qed.

Example md5_abc :
  option_map md5_hexdigest (encode_utf8 (py "abc"))
  = Some (py "900150983cd24fb0d6963f7d28e17f72").
Proof. vm_compute. reflexivity. Qed.

Example md5_long :
  option_map md5_hexdigest
    (encode_utf8 (py "12345678901234567890123456789012345678901234567890123456789012345678901234567890"))
  = Some (py "57edf4a22be3c955ac49da2e2107b67a").
Proof. vm_compute. reflexivity. Qed.

Example splitlines_ex1 :
  splitlines (py "ab" ++ [CR; LF] ++ py "c" ++ [LF; LF]) = [py "ab"; py "c"; []].
Proof. reflexivity. Qed.

Example strip_ex1 : strip (py "  # x ") = py "# x".
Proof. reflexivity. Qed.

Section DrainFacts.

Variable excl : list str.
Variable out : str.

#[local] Arguments drain_step : simpl never.

Lemma drain_cons s res rest :
  drain excl out s (res :: rest) =
  let s1 := (fst (drain_step excl out s res)) in
  ((fst (drain excl out s1 rest)),
   (snd (drain_step excl out s res)) :: (snd (drain excl out s1 rest))).
Proof.
  cbn [drain]. destruct (drain_step excl out s res) as [s1 o]. simpl.
  destruct (drain excl out s1 rest) as [s2 os]. reflexivity.
Qed.

Lemma drain_length s results :
  length (snd (drain excl out s results)) = length results.
Proof.
  revert s. induction results as [|res rest IH]; intros s; [reflexivity|].
  rewrite drain_cons. simpl. f_equal. apply IH.
Qed.

(** The case analysis of one iteration, written once. *)
Lemma drain_step_cases s res :
  (res = None ∧ (snd (drain_step excl out s res)) = Error
     ∧ seen_hashes (fst (drain_step excl out s res)) = seen_hashes s)
  ∨ (∃ r, res = Some r ∧ hash r ∈ seen_hashes s
     ∧ (snd (drain_step excl out s res)) = Duplicate
     ∧ seen_hashes (fst (drain_step excl out s res)) = seen_hashes s)
  ∨ (∃ r, res = Some r ∧ (hash r ∉ seen_hashes s) ∧ eligible excl r = false
     ∧ ((snd (drain_step excl out s res)) = SeveritySkipped
        ∨ (snd (drain_step excl out s res)) = KeywordSkipped)
     ∧ seen_hashes (fst (drain_step excl out s res)) = seen_hashes s)
  ∨ (∃ r, res = Some r ∧ (hash r ∉ seen_hashes s) ∧ eligible excl r = true
     ∧ (snd (drain_step excl out s res)) = Copied
     ∧ seen_hashes (fst (drain_step excl out s res)) = {[ hash r ]} ∪ seen_hashes s).
Proof.
  destruct res as [r|]; [|left; auto].
  right. unfold drain_step, eligible.
  destruct (bool_decide_reflect (hash r ∈ seen_hashes s)) as [Hin|Hin].
  { left. exists r. auto. }
  right.
  destruct (bool_decide (severity r ∈ excl)) eqn:Hsev; simpl.
  { left. exists r. rewrite Hsev. repeat split; auto. }
  destruct (skip_keyword r) eqn:Hkw; simpl.
  - left. exists r. rewrite Hsev, Hkw. repeat split; auto.
  - right. exists r. rewrite Hsev, Hkw. repeat split; auto.
Qed.

(** The set at the end is the set at the start with the hashes added. *)
Lemma drain_seen s results :
  seen_hashes (fst (drain excl out s results))
  = list_to_set (added_hashes results (snd (drain excl out s results))) ∪ seen_hashes s.
Proof.
  revert s. induction results as [|res rest IH]; intros s.
  { simpl. by rewrite (left_id_L ∅ (∪)). }
  rewrite drain_cons. cbn zeta. simpl fst. simpl snd. rewrite IH.
  destruct (drain_step_cases s res)
    as [(-> & Ho & Hs)|[(r & -> & _ & Ho & Hs)|[(r & -> & _ & _ & Ho & Hs)
       |(r & -> & _ & _ & Ho & Hs)]]]; rewrite Hs.
  - reflexivity.
  - simpl. rewrite Ho. reflexivity.
  - simpl. destruct Ho as [-> | ->]; reflexivity.
  - simpl. rewrite Ho. simpl. set_solver.
Qed.

(** A hash is added only when it is not in the set yet, so no hash is
    added twice and none that the set had at the start. *)
Lemma drain_added_fresh s results :
  NoDup (added_hashes results (snd (drain excl out s results)))
  ∧ ∀ h, h ∈ added_hashes results (snd (drain excl out s results)) → h ∉ seen_hashes s.
Proof.
  revert s. induction results as [|res rest IH]; intros s.
  { simpl. split; [constructor|]. intros h Hh. inversion Hh. }
  rewrite drain_cons. cbn zeta. simpl snd.
  destruct (IH (fst (drain_step excl out s res))) as [IHnd IHfresh].
  destruct (drain_step_cases s res)
    as [(-> & Ho & Hs)|[(r & -> & _ & Ho & Hs)|[(r & -> & _ & _ & Ho & Hs)
       |(r & -> & Hnin & _ & Ho & Hs)]]]; rewrite Hs in IHfresh.
  - simpl. auto.
  - simpl. rewrite Ho. auto.
  - simpl. destruct Ho as [-> | ->]; auto.
  - simpl. rewrite Ho. split.
    + constructor; [|assumption]. intros Hin. apply IHfresh in Hin. set_solver.
    + intros h Hh. apply elem_of_cons in Hh as [->|Hh]; [assumption|].
      apply IHfresh in Hh. set_solver.
Qed.

(** The hashes in the set at the end, by the results alone. *)
Lemma drain_seen_eligible s results :
  seen_hashes (fst (drain excl out s results))
  = list_to_set (eligible_hashes excl results) ∪ seen_hashes s.
Proof.
  revert s. induction results as [|res rest IH]; intros s.
  { simpl. by rewrite (left_id_L ∅ (∪)). }
  rewrite drain_cons. cbn zeta. simpl fst. rewrite IH.
  destruct (drain_step_cases s res)
    as [(-> & Ho & Hs)|[(r & -> & Hin & Ho & Hs)|[(r & -> & _ & He & Ho & Hs)
       |(r & -> & _ & He & Ho & Hs)]]]; rewrite Hs; unfold eligible_hashes; simpl.
  - reflexivity.
  - destruct (eligible excl r); simpl; set_solver.
  - rewrite He. reflexivity.
  - rewrite He. simpl. set_solver.
Qed.

End DrainFacts.

Example poc_info_value : poc_info = Some login_info.
Proof. vm_compute. reflexivity. Qed.

Example poc_static_value : poc_static = Some static_low.
Proof. vm_compute. reflexivity. Qed.

Example login_medium_value :
  evaluate "/poc/f/login.yaml" login_c_text = Some login_medium.
Proof. vm_compute. reflexivity. Qed.

Example inline_result_value :
  evaluate "/poc/g/probe.yaml" inline_text = Some inline_result.
Proof. vm_compute. reflexivity. Qed.

Example broken_result_value :
  evaluate "/poc/h/probe.yaml" broken_text = Some broken_result.
Proof. vm_compute. reflexivity. Qed.

Example poc_nosig_value : poc_nosig = None.
Proof. vm_compute. reflexivity. Qed.

Example poc_high_value : poc_high = Some login_high.
Proof. vm_compute. reflexivity. Qed.

(** C1.  One iteration of the drain loop takes exactly the branch that
    the precedence (a) to (e) selects: it increments the counter of that
    branch and no other, and it touches [seen_hashes] and copies a file
    only in branch (e), where the fingerprint of the result is added to
    the set and the file is copied to the output directory under its
    file name. *)
Theorem drain_step_precedence excl out s res :
  let s' := fst (drain_step excl out s res) in
  let o := snd (drain_step excl out s res) in
  o = precedence excl (seen_hashes s) res
  ∧ counters s' = bump o (counters s)
  ∧ total (counters s') = S (total (counters s))
  ∧ match o, res with
    | Copied, Some r =>
        seen_hashes s' = {[ hash r ]} ∪ seen_hashes s
        ∧ copy_log s' = (path r, path_join out (filename r)) :: copy_log s
    | Copied, None => False
    | _, _ => seen_hashes s' = seen_hashes s ∧ copy_log s' = copy_log s
    end.
Proof.
  unfold drain_step, precedence, total.
  destruct res as [r|]; [|simpl; repeat split; lia].
  destruct (decide (hash r ∈ seen_hashes s)) as [Hin|Hin].
  { rewrite bool_decide_eq_true_2 by assumption. simpl. repeat split; lia. }
  rewrite bool_decide_eq_false_2 by assumption.
  destruct (decide (severity r ∈ excl)) as [Hsev|Hsev].
  { rewrite bool_decide_eq_true_2 by assumption. simpl. repeat split; lia. }
  rewrite bool_decide_eq_false_2 by assumption.
  destruct (skip_keyword r); simpl; repeat split; lia.
Qed.

Section RunFacts.

Variable excl : list str.
Variable out : str.

Lemma drain_step_counters s res :
  snd (drain_step excl out s res) = precedence excl (seen_hashes s) res
  ∧ counters (fst (drain_step excl out s res))
    = bump (snd (drain_step excl out s res)) (counters s)
  ∧ total (counters (fst (drain_step excl out s res))) = S (total (counters s)).
Proof.
  unfold drain_step, precedence, total.
  destruct res as [r|]; [|simpl; repeat split; lia].
  destruct (decide (hash r ∈ seen_hashes s)) as [Hin|Hin].
  { rewrite bool_decide_eq_true_2 by assumption. simpl. repeat split; lia. }
  rewrite bool_decide_eq_false_2 by assumption.
  destruct (decide (severity r ∈ excl)) as [Hsev|Hsev].
  { rewrite bool_decide_eq_true_2 by assumption. simpl. repeat split; lia. }
  rewrite bool_decide_eq_false_2 by assumption.
  destruct (skip_keyword r); simpl; repeat split; lia.
Qed.

#[local] Arguments drain_step : simpl never.

Lemma drain_lookup s results i res :
  results !! i = Some res →
  ∃ si, snd (drain excl out s results) !! i = Some (snd (drain_step excl out si res)).
Proof.
  revert s i. induction results as [|x rest IH]; intros s i Hi; [discriminate|].
  rewrite drain_cons. cbn zeta. simpl snd.
  destruct i as [|i]; simpl in *.
  - injection Hi as ->. eauto.
  - eapply IH; eassumption.
Qed.

Lemma drain_counters s results :
  let s' := fst (drain excl out s results) in
  let os := snd (drain excl out s results) in
  copied (counters s') = copied (counters s) + length (added_hashes results os)
  ∧ error (counters s') = error (counters s) + failures results
  ∧ total (counters s') = total (counters s) + length results.
Proof.
  revert s. induction results as [|res rest IH]; intros s.
  { simpl. unfold failures. simpl. lia. }
  rewrite drain_cons. cbn zeta. simpl fst. simpl snd.
  destruct (IH (fst (drain_step excl out s res))) as (IHc & IHe & IHt).
  rewrite IHc, IHe, IHt.
  destruct (drain_step_counters s res) as (Ho & Hb & Ht).
  rewrite Ht, Hb, Ho. unfold failures, precedence in *.
  destruct res as [r|]; simpl; repeat case_decide; simpl; lia.
Qed.

(** From the empty set: as many copies as fingerprints in the set. *)
Lemma run_copied results :
  copied (counters (run excl out results))
  = size (list_to_set (eligible_hashes excl results) : gset (option str)).
Proof.
  unfold run.
  destruct (drain_counters initial results) as (Hc & _ & _). rewrite Hc. simpl.
  destruct (drain_added_fresh excl out initial results) as [Hnd _].
  rewrite <- (size_list_to_set (C:=gset (option str))) by assumption.
  f_equal.
  pose proof (drain_seen excl out initial results) as H1.
  pose proof (drain_seen_eligible excl out initial results) as H2.
  simpl in H1, H2. rewrite (right_id_L ∅ (∪)) in H1, H2. congruence.
Qed.

End RunFacts.

Section GroupFacts.

Variable excl : list str.
Variable out : str.

Lemma count_NoDup (h : option str) (l : list (option str)) :
  NoDup l →
  length (List.filter (fun x => bool_decide (x = h)) l) ≤ 1
  ∧ (length (List.filter (fun x => bool_decide (x = h)) l) = 1 ↔ h ∈ l).
Proof.
  induction 1 as [|x l Hx Hnd IH]; simpl.
  { split; [lia|]. split; [discriminate|]. intros H; inversion H. }
  destruct IH as [IHle IHiff].
  destruct (bool_decide_reflect (x = h)) as [->|Hne]; simpl.
  - assert (length (List.filter (fun x => bool_decide (x = h)) l) = 0) as ->.
    { destruct (length (List.filter _ l)) as [|[|n]] eqn:E; [reflexivity| |lia].
      exfalso. apply Hx, IHiff. reflexivity. }
    split; [lia|]. split; [intros _; left|reflexivity].
  - split; [assumption|]. rewrite IHiff, elem_of_cons. naive_solver.
Qed.

Lemma elem_of_eligible_hashes (h : option str) results :
  h ∈ eligible_hashes excl results
  ↔ ∃ r, Some r ∈ results ∧ hash r = h ∧ eligible excl r = true.
Proof.
  unfold eligible_hashes. rewrite list_elem_of_omap. split.
  - intros ([r|] & Hin & Hf); [|discriminate].
    destruct (eligible excl r) eqn:He; [|discriminate].
    exists r. injection Hf as <-. auto.
  - intros (r & Hin & <- & He). exists (Some r). rewrite He. auto.
Qed.

Lemma run_added results :
  seen_hashes (run excl out results)
  = list_to_set (added_hashes results (snd (drain excl out initial results)))
  ∧ seen_hashes (run excl out results) = list_to_set (eligible_hashes excl results).
Proof.
  unfold run.
  pose proof (drain_seen excl out initial results) as H1.
  pose proof (drain_seen_eligible excl out initial results) as H2.
  simpl in H1, H2. rewrite (right_id_L ∅ (∪)) in H1, H2. auto.
Qed.

Lemma excluded_step s r :
  severity r ∈ excl →
  snd (drain_step excl out s (Some r)) = Duplicate
  ∨ snd (drain_step excl out s (Some r)) = SeveritySkipped.
Proof.
  intros Hsev. destruct (drain_step_counters excl out s (Some r)) as (-> & _).
  unfold precedence. repeat case_decide; auto; contradiction.
Qed.

End GroupFacts.

(** C4, as worded, fails: a group whose only member is of an excluded
    severity has no member copied. *)
Lemma one_copy_per_group_fails :
  ¬ one_copy_per_group [py "info"] (py "/kept") [poc_info].
Proof.
  intros H.
  specialize (H (Some (py "6530b352607e6f27bffe98fcf3dc1cbb"))).
  assert (group_copies (Some (py "6530b352607e6f27bffe98fcf3dc1cbb")) [poc_info]
            (snd (drain [py "info"] (py "/kept") initial [poc_info])) = 0) as H0.
  { vm_compute. reflexivity. }
  rewrite H0 in H. enough (0 = 1) by discriminate. apply H.
  rewrite poc_info_value. eexists. split; [apply elem_of_cons; left; reflexivity|].
  reflexivity.
Qed.

(** C4, amended.  In every run, whatever the order of the results, at
    most one file of each fingerprint is copied, and exactly one if and
    only if some result with that fingerprint is neither of an excluded
    severity nor flagged by the keyword scan.  No fingerprint is added to
    [seen_hashes] twice, a fingerprint is added only in the iteration
    that copies its file, and the set at the end holds exactly the
    fingerprints added. *)
Theorem one_copy_per_fingerprint excl out results h :
  let os := snd (drain excl out initial results) in
  group_copies h results os ≤ 1
  ∧ (group_copies h results os = 1
     ↔ ∃ r, Some r ∈ results ∧ hash r = h ∧ eligible excl r = true)
  ∧ NoDup (added_hashes results os)
  ∧ seen_hashes (run excl out results) = list_to_set (added_hashes results os).
Proof.
  cbn zeta.
  destruct (drain_added_fresh excl out initial results) as [Hnd _].
  destruct (run_added excl out results) as [Hadd Hel].
  destruct (count_NoDup h _ Hnd) as [Hle Hiff].
  unfold group_copies. repeat split; try assumption.
  - intros H1. apply Hiff in H1.
    apply (elem_of_eligible_hashes excl).
    apply (elem_of_list_to_set (C:=gset (option str))). rewrite <- Hel, Hadd.
    apply elem_of_list_to_set. assumption.
  - intros Hr. apply Hiff.
    apply (elem_of_list_to_set (C:=gset (option str))). rewrite <- Hadd, Hel.
    apply elem_of_list_to_set. apply elem_of_eligible_hashes. assumption.
Qed.

(** C5.  A result whose severity is in the excluded set is never copied:
    wherever it stands in the run, its iteration ends as a duplicate or
    as severity-excluded; and when its fingerprint has not been seen, so
    that it is the first of its group, the iteration is counted as
    severity-excluded and neither the set nor the copies change. *)
Theorem excluded_severity_never_copied excl out s results i r :
  results !! i = Some (Some r) →
  severity r ∈ excl →
  (snd (drain excl out s results) !! i = Some Duplicate
   ∨ snd (drain excl out s results) !! i = Some SeveritySkipped)
  ∧ ∀ s0, hash r ∉ seen_hashes s0 →
      snd (drain_step excl out s0 (Some r)) = SeveritySkipped
      ∧ seen_hashes (fst (drain_step excl out s0 (Some r))) = seen_hashes s0
      ∧ copy_log (fst (drain_step excl out s0 (Some r))) = copy_log s0.
Proof.
  intros Hi Hsev. split.
  - destruct (drain_lookup excl out s results i _ Hi) as [si ->].
    destruct (excluded_step excl out si r Hsev) as [-> | ->]; auto.
  - intros s0 Hnew. unfold drain_step.
    rewrite bool_decide_eq_false_2 by assumption.
    rewrite bool_decide_eq_true_2 by assumption. auto.
Qed.

Lemma excluded_severity_never_copied_witness :
  (snd (drain [py "info"] (py "/kept") initial [poc_other; Some login_info]) !! 1
   = Some Duplicate
   ∨ snd (drain [py "info"] (py "/kept") initial [poc_other; Some login_info]) !! 1
     = Some SeveritySkipped)
  ∧ ∀ s0, hash login_info ∉ seen_hashes s0 →
      snd (drain_step [py "info"] (py "/kept") s0 (Some login_info)) = SeveritySkipped
      ∧ seen_hashes (fst (drain_step [py "info"] (py "/kept") s0 (Some login_info)))
        = seen_hashes s0
      ∧ copy_log (fst (drain_step [py "info"] (py "/kept") s0 (Some login_info)))
        = copy_log s0.
Proof.
  apply (excluded_severity_never_copied [py "info"] (py "/kept") initial
           [poc_other; Some login_info] 1 login_info).
  - reflexivity.
  - apply elem_of_cons. left. reflexivity.
Defined.

(** C8, as worded, fails: with [info] excluded, two files of one
    fingerprint, one [info] and one [high], give one severity-excluded and
    no duplicate when the [info] file is drained first, and one duplicate
    and no severity-excluded the other way round. *)
Lemma counts_order_independent_fails :
  ¬ counts_order_independent [py "info"] (py "/kept") [poc_info; poc_high].
Proof.
  intros H. specialize (H [poc_high; poc_info] (perm_swap _ _ _)).
  vm_compute in H. discriminate H.
Qed.

(** C8, amended.  Two runs over the same results in different orders
    end with the same number of copied files, the same number of errors,
    the same set of fingerprints and the same sum of the duplicate,
    severity-excluded and keyword-excluded counts; how that sum is split
    between the three depends on the order. *)
Theorem counts_under_permutation excl out results results' :
  results ≡ₚ results' →
  let st := counters (run excl out results) in
  let st' := counters (run excl out results') in
  copied st' = copied st
  ∧ error st' = error st
  ∧ duplicate st' + severity_skipped st' + keyword_skipped st'
    = duplicate st + severity_skipped st + keyword_skipped st
  ∧ seen_hashes (run excl out results') = seen_hashes (run excl out results).
Proof.
  intros Hp. cbn zeta.
  assert (copied (counters (run excl out results'))
          = copied (counters (run excl out results))) as Hc.
  { rewrite !run_copied. unfold eligible_hashes. by rewrite Hp. }
  assert (error (counters (run excl out results'))
          = error (counters (run excl out results))) as He.
  { unfold run.
    destruct (drain_counters excl out initial results) as (_ & -> & _).
    destruct (drain_counters excl out initial results') as (_ & -> & _).
    f_equal. unfold failures. apply Permutation_length.
    clear -Hp. induction Hp; simpl; repeat case_match; simpl;
      try constructor; auto; try (eapply perm_trans; eassumption). }
  split; [assumption|]. split; [assumption|]. split.
  - pose proof (drain_counters excl out initial results) as (_ & _ & Ht).
    pose proof (drain_counters excl out initial results') as (_ & _ & Ht').
    fold (run excl out results) in Ht. fold (run excl out results') in Ht'.
    apply Permutation_length in Hp. unfold total in *. lia.
  - destruct (run_added excl out results) as [_ ->].
    destruct (run_added excl out results') as [_ ->].
    unfold eligible_hashes. by rewrite Hp.
Qed.

Lemma counts_under_permutation_witness :
  let st := counters (run [py "info"] (py "/kept") [poc_info; poc_high]) in
  let st' := counters (run [py "info"] (py "/kept") [poc_high; poc_info]) in
  copied st' = copied st
  ∧ error st' = error st
  ∧ duplicate st' + severity_skipped st' + keyword_skipped st'
    = duplicate st + severity_skipped st + keyword_skipped st
  ∧ seen_hashes (run [py "info"] (py "/kept") [poc_high; poc_info])
    = seen_hashes (run [py "info"] (py "/kept") [poc_info; poc_high]).
Proof.
  apply (counts_under_permutation [py "info"] (py "/kept")
           [poc_info; poc_high] [poc_high; poc_info]).
  apply perm_swap.
Defined.

(** ** Facts about the text primitives *)

Section TextFacts.

Lemma startswith_spec (p s : str) :
  startswith p s = true ↔ ∃ t, s = p ++ t.
Proof.
  revert s. induction p as [|a p IH]; intros s; simpl.
  { split; eauto. }
  destruct s as [|b s].
  { split; [discriminate|]. intros [t Ht]. discriminate. }
  rewrite andb_true_iff, N.eqb_eq, IH. split.
  - intros [-> [t ->]]. eauto.
  - intros [t Ht]. injection Ht as -> ->. eauto.
Qed.

Lemma contains_spec (p s : str) :
  contains p s = true ↔ ∃ pre post, s = pre ++ p ++ post.
Proof.
  induction s as [|c s IH]; simpl.
  - rewrite orb_false_r, startswith_spec. split.
    + intros [t Ht]. exists [], t. assumption.
    + intros (pre & post & H). destruct pre; [|discriminate]. eauto.
  - rewrite orb_true_iff, startswith_spec, IH. split.
    + intros [[t Ht]|(pre & post & ->)].
      * exists [], t. assumption.
      * exists (c :: pre), post. reflexivity.
    + intros (pre & post & H). destruct pre as [|d pre]; simpl in H.
      * left. eauto.
      * right. injection H as _ ->. eauto.
Qed.

Lemma islinebreak_isspace c : islinebreak c = true → isspace c = true.
Proof.
  intros Hb. unfold islinebreak in Hb. unfold isspace.
  rewrite !orb_true_iff, !andb_true_iff, !N.leb_le, !N.eqb_eq in Hb.
  rewrite !orb_true_iff, !andb_true_iff, !N.leb_le, !N.eqb_eq. lia.
Qed.

Lemma sub_spaces_app (a b : str) :
  sub_spaces (a ++ b) = sub_spaces a ++ sub_spaces b.
Proof.
  induction a as [|c a IH]; simpl; [reflexivity|].
  destruct (isspace c); simpl; congruence.
Qed.

Lemma sub_spaces_no_space (s : str) :
  Forall (fun c => isspace c = false) (sub_spaces s).
Proof.
  induction s as [|c s IH]; simpl; [constructor|].
  destruct (isspace c) eqn:E; [assumption|]. constructor; assumption.
Qed.

Lemma sub_spaces_id (s : str) :
  Forall (fun c => isspace c = false) s → sub_spaces s = s.
Proof.
  induction 1 as [|c s Hc _ IH]; simpl; [reflexivity|]. rewrite Hc. congruence.
Qed.

Lemma sub_spaces_join (ls : list str) :
  sub_spaces (join [LF] ls) = List.concat (List.map sub_spaces ls).
Proof.
  induction ls as [|l ls IH]; [reflexivity|].
  destruct ls as [|l' ls].
  - simpl. rewrite app_nil_r. reflexivity.
  - change (join [LF] (l :: l' :: ls)) with (l ++ [LF] ++ join [LF] (l' :: ls)).
    rewrite !sub_spaces_app, IH. reflexivity.
Qed.

End TextFacts.

Lemma keyword_line_spec line : keyword_line line = true ↔ co_occurrence line.
Proof.
  unfold keyword_line, co_occurrence, occurs_in.
  rewrite andb_true_iff, !existsb_exists.
  setoid_rewrite contains_spec. setoid_rewrite <- list_elem_of_In. reflexivity.
Qed.

Lemma keyword_loop_spec lines :
  (fst (keyword_loop lines) = true →
     ∃ k line, snd (keyword_loop lines) = S k ∧ lines !! k = Some line
       ∧ keyword_line line = true
       ∧ ∀ j l, j < k → lines !! j = Some l → keyword_line l = false)
  ∧ (fst (keyword_loop lines) = false →
     snd (keyword_loop lines) = length lines
     ∧ ∀ l, l ∈ lines → keyword_line l = false).
Proof.
  induction lines as [|line rest [IHt IHf]]; simpl.
  { split; [discriminate|]. intros _. split; [reflexivity|].
    intros l Hl. inversion Hl. }
  destruct (keyword_line line) eqn:Hline; simpl.
  - split; [|discriminate]. intros _. exists 0, line. repeat split; auto.
    intros j l Hj. lia.
  - destruct (keyword_loop rest) as [flag n]. simpl in *. split.
    + intros Hflag. destruct (IHt Hflag) as (k & l & -> & Hk & Hl & Hbefore).
      exists (S k), l. repeat split; auto.
      intros [|j] l' Hj Hl'; simpl in Hl'.
      * injection Hl' as <-. assumption.
      * apply (Hbefore j); [lia|assumption].
    + intros Hflag. destruct (IHf Hflag) as [-> Hall]. split; [reflexivity|].
      intros l Hl. apply elem_of_cons in Hl as [->|Hl]; auto.
Qed.

(** C6.  The keyword-skip flag of a result is true exactly when some
    line of the file holds, as plain substrings, one of the primary
    keywords and one of the secondary keywords; and the loop stops at
    the first such line: it has then looked at that line and the ones
    before it, none of which has both, and at all the lines otherwise. *)
Theorem keyword_flag_iff isword lower file_path content r :
  process_file isword lower file_path (Some content) = Some r →
  (skip_keyword r = true
   ↔ ∃ line, line ∈ splitlines content ∧ co_occurrence line)
  ∧ (skip_keyword r = true →
     ∃ k line, snd (keyword_loop (splitlines content)) = S k
       ∧ splitlines content !! k = Some line ∧ co_occurrence line
       ∧ ∀ j l, j < k → splitlines content !! j = Some l → ¬ co_occurrence l)
  ∧ (skip_keyword r = false →
     snd (keyword_loop (splitlines content)) = length (splitlines content)).
Proof.
  intros Hr. unfold process_file in Hr.
  destruct (search_req content) as [start|]; [|discriminate].
  destruct (encode_utf8 _) as [bytes|]; [|discriminate].
  injection Hr as <-. simpl.
  destruct (keyword_loop_spec (splitlines content)) as [Ht Hf].
  refine (conj (conj _ _) (conj _ _)).
  - intros Hflag. destruct (Ht Hflag) as (k & line & _ & Hk & Hline & _).
    exists line. split; [|by apply keyword_line_spec].
    apply list_elem_of_lookup. eauto.
  - intros (line & Hin & Hco).
    destruct (fst (keyword_loop (splitlines content))) eqn:E; [reflexivity|].
    destruct (Hf eq_refl) as [_ Hall].
    apply keyword_line_spec in Hco. rewrite (Hall _ Hin) in Hco. discriminate.
  - intros Hflag. destruct (Ht Hflag) as (k & line & Hn & Hk & Hline & Hbefore).
    exists k, line. split; [assumption|]. split; [assumption|].
    split; [by apply keyword_line_spec|].
    intros j l Hj Hl Hco. apply keyword_line_spec in Hco.
    rewrite (Hbefore j l Hj Hl) in Hco. discriminate.
  - intros Hflag. apply Hf. assumption.
Qed.

Lemma keyword_flag_iff_witness :
  (skip_keyword static_low = true
   ↔ ∃ line, line ∈ splitlines static_text ∧ co_occurrence line)
  ∧ (skip_keyword static_low = true →
     ∃ k line, snd (keyword_loop (splitlines static_text)) = S k
       ∧ splitlines static_text !! k = Some line ∧ co_occurrence line
       ∧ ∀ j l, j < k → splitlines static_text !! j = Some l → ¬ co_occurrence l)
  ∧ (skip_keyword static_low = false →
     snd (keyword_loop (splitlines static_text)) = length (splitlines static_text)).
Proof.
  apply (keyword_flag_iff isword_ascii lower_ascii (py "/poc/d/static.yaml")
           static_text static_low).
  vm_compute. reflexivity.
Defined.

Lemma hexdigit_lower_hex (n : Z) :
  (0 <= n < 16)%Z → is_lower_hex (hexdigit n) = true.
Proof.
  intros Hn.
  assert (n = 0 ∨ n = 1 ∨ n = 2 ∨ n = 3 ∨ n = 4 ∨ n = 5 ∨ n = 6 ∨ n = 7
          ∨ n = 8 ∨ n = 9 ∨ n = 10 ∨ n = 11 ∨ n = 12 ∨ n = 13 ∨ n = 14
          ∨ n = 15)%Z as H by lia.
  repeat (destruct H as [->|H]; [reflexivity|]). subst n. reflexivity.
Qed.

Lemma hex_of_byte_shape (b : Z) :
  length (hex_of_byte b) = 2 ∧ Forall (fun c => is_lower_hex c = true) (hex_of_byte b).
Proof.
  split; [reflexivity|]. unfold hex_of_byte.
  repeat constructor; apply hexdigit_lower_hex; apply Z.mod_pos_bound; lia.
Qed.

Lemma le_bytes_length n x : length (le_bytes n x) = n.
Proof. unfold le_bytes. rewrite length_map, length_seq. reflexivity. Qed.

Lemma md5_hexdigest_shape (msg : list Z) :
  length (md5_hexdigest msg) = 32
  ∧ Forall (fun c => is_lower_hex c = true) (md5_hexdigest msg).
Proof.
  unfold md5_hexdigest.
  assert (length (md5_digest msg) = 16) as Hlen.
  { unfold md5_digest. cbn zeta. rewrite !length_app, !le_bytes_length. reflexivity. }
  revert Hlen. generalize (md5_digest msg). intros bs.
  assert (∀ bs : list Z, length (flat_map hex_of_byte bs) = 2 * length bs
          ∧ Forall (fun c => is_lower_hex c = true) (flat_map hex_of_byte bs)) as H.
  { clear. induction bs as [|b bs [IHl IHf]]; simpl; [split; [reflexivity|constructor]|].
    split; [lia|]. repeat constructor; try assumption;
      apply hexdigit_lower_hex; apply Z.mod_pos_bound; lia. }
  intros Hlen. destruct (H bs) as [Hl Hf]. split; [lia|assumption].
Qed.

(** C10.  A result that [process_file] returns always carries a
    fingerprint: the field is never empty, and its value is the MD5 hex
    digest of the UTF-8 bytes of the condensed request block, a string of
    32 characters from [0-9a-f].  The file without a request block gets
    no result at all. *)
Theorem result_has_fingerprint isword lower file_path read r :
  process_file isword lower file_path read = Some r →
  ∃ content start bytes h,
    read = Some content
    ∧ search_req content = Some start
    ∧ encode_utf8 (condensed_content (skipn start content)) = Some bytes
    ∧ h = md5_hexdigest bytes
    ∧ hash r = Some h
    ∧ length h = 32
    ∧ Forall (fun c => is_lower_hex c = true) h.
Proof.
  intros Hr. unfold process_file in Hr.
  destruct read as [content|]; [|discriminate].
  destruct (search_req content) as [start|] eqn:Hstart; [|discriminate].
  destruct (encode_utf8 _) as [bytes|] eqn:Hbytes; [|discriminate].
  injection Hr as <-. simpl.
  destruct (md5_hexdigest_shape bytes) as [Hl Hf].
  exists content, start, bytes, (md5_hexdigest bytes). auto 10.
Qed.

Lemma result_has_fingerprint_witness :
  ∃ content start bytes h,
    Some login_a_text = Some content
    ∧ search_req content = Some start
    ∧ encode_utf8 (condensed_content (skipn start content)) = Some bytes
    ∧ h = md5_hexdigest bytes
    ∧ hash login_info = Some h
    ∧ length h = 32
    ∧ Forall (fun c => is_lower_hex c = true) h.
Proof.
  apply (result_has_fingerprint isword_ascii lower_ascii (py "/poc/a/login.yaml")
           (Some login_a_text) login_info).
  vm_compute. reflexivity.
Defined.

Section NormalFacts.

Lemma lstrip_snoc (m : str) c :
  isspace c = false → ∃ u, lstrip (m ++ [c]) = u ++ [c].
Proof.
  intros Hc. induction m as [|a m [u IH]]; simpl.
  - rewrite Hc. exists []. reflexivity.
  - destruct (isspace a); [eauto|]. exists (a :: m). reflexivity.
Qed.

Lemma rstrip_head (l : str) c :
  isspace c = false → ∃ t, rstrip (c :: l) = c :: t.
Proof.
  intros Hc. unfold rstrip. simpl.
  destruct (lstrip_snoc (rev l) c Hc) as [u ->].
  rewrite rev_app_distr. simpl. eauto.
Qed.

(** Whether a line is a comment line depends on its first character
    that is not white space, and on nothing else. *)
Lemma is_comment_sub_spaces (l : str) :
  is_comment l = startswith [HASH] (sub_spaces l).
Proof.
  unfold is_comment, strip. induction l as [|c l IH]; [reflexivity|].
  simpl. destruct (isspace c) eqn:Hc; [exact IH|].
  destruct (rstrip_head l c Hc) as [t ->]. reflexivity.
Qed.

Lemma keep_line_sub_spaces (l l' : str) :
  sub_spaces l = sub_spaces l' → keep_line l = keep_line l'.
Proof.
  intros H. unfold keep_line. rewrite !is_comment_sub_spaces, H. reflexivity.
Qed.

Lemma keep_line_nil : keep_line [] = [].
Proof. reflexivity. Qed.

Lemma keep_line_not_hash (l : str) : startswith [HASH] (keep_line l) = false.
Proof.
  unfold keep_line. rewrite is_comment_sub_spaces.
  destruct (startswith [HASH] (sub_spaces l)) eqn:E; [reflexivity|exact E].
Qed.

Lemma keep_line_no_space (l : str) :
  Forall (fun c => isspace c = false) (keep_line l).
Proof.
  unfold keep_line. destruct (is_comment l); [constructor|apply sub_spaces_no_space].
Qed.

Lemma condensed_content_lines (s : str) :
  condensed_content s = List.concat (List.map keep_line (splitlines s)).
Proof.
  unfold condensed_content, cleaned_lines. rewrite sub_spaces_join.
  induction (splitlines s) as [|l ls IH]; [reflexivity|].
  simpl. unfold keep_line at 1. destruct (is_comment l); simpl; congruence.
Qed.

(** [splitlines] on a text whose first line boundary is known. *)
Lemma splitlines_no_break (cur : str) :
  Forall (fun c => islinebreak c = false) cur →
  splitlines cur = match cur with [] => [] | _ => [cur] end.
Proof.
  induction 1 as [|c cur Hc Hcur IH]; [reflexivity|].
  simpl. rewrite Hc, IH. destruct cur; reflexivity.
Qed.

Lemma splitlines_break (cur : str) c rest :
  Forall (fun c => islinebreak c = false) cur →
  islinebreak c = true →
  splitlines (cur ++ c :: rest)
  = cur :: splitlines (match rest with
                       | d :: rest' => if (c =? CR)%N && (d =? LF)%N then rest' else rest
                       | [] => []
                       end).
Proof.
  intros Hcur Hc. induction Hcur as [|a cur Ha Hcur IH].
  - simpl. rewrite Hc. destruct rest as [|d rest']; [reflexivity|].
    destruct ((c =? CR)%N && (d =? LF)%N); reflexivity.
  - change ((a :: cur) ++ c :: rest) with (a :: (cur ++ c :: rest)).
    cbn [splitlines]. rewrite Ha, IH. reflexivity.
Qed.

Lemma scan_lines_bounded n : ∀ (s cur : str),
  length s ≤ n →
  Forall (fun c => islinebreak c = false) cur →
  List.concat (List.map keep_line (splitlines (cur ++ s))) = scan cur s.
Proof.
  induction n as [|n IH]; intros s cur Hlen Hcur.
  - destruct s; [|simpl in Hlen; lia]. rewrite app_nil_r.
    rewrite splitlines_no_break by assumption. simpl.
    destruct cur; simpl; [reflexivity|apply app_nil_r].
  - destruct s as [|c rest].
    { rewrite app_nil_r, splitlines_no_break by assumption. simpl.
      destruct cur; simpl; [reflexivity|apply app_nil_r]. }
    simpl in Hlen. cbn [scan]. destruct (islinebreak c) eqn:Hc.
    + rewrite splitlines_break by assumption. simpl. f_equal.
      destruct rest as [|d rest']; [reflexivity|].
      destruct ((c =? CR)%N && (d =? LF)%N) eqn:Hcrlf.
      * apply andb_true_iff in Hcrlf as [_ Hd]. apply N.eqb_eq in Hd. subst d.
        simpl in Hlen.
        assert (length rest' ≤ n) as Hn by lia.
        pose proof (IH rest' [] Hn (List.Forall_nil _)) as IH'. simpl in IH'.
        rewrite IH'. cbn [scan]. replace (islinebreak LF) with true by reflexivity.
        reflexivity.
      * apply (IH (d :: rest') []); [lia|constructor].
    + replace (cur ++ c :: rest) with ((cur ++ [c]) ++ rest)
        by (rewrite <- app_assoc; reflexivity).
      apply IH; [lia|]. apply Forall_app. split; [assumption|].
      constructor; [assumption|constructor].
Qed.

(** The condensed block of the script is the one-pass reading. *)
Lemma condensed_content_scan (s : str) : condensed_content s = scan [] s.
Proof.
  rewrite condensed_content_lines.
  apply (scan_lines_bounded (length s) s []); [lia|constructor].
Qed.

End NormalFacts.

Section ScanFacts.

Lemma scan_no_break (cur s : str) :
  Forall (fun c => islinebreak c = false) s → scan cur s = keep_line (cur ++ s).
Proof.
  intros Hs. revert cur. induction Hs as [|c s Hc Hs IH]; intros cur; simpl.
  - rewrite app_nil_r. reflexivity.
  - rewrite Hc, IH, <- app_assoc. reflexivity.
Qed.

Lemma no_space_no_break (s : str) :
  Forall (fun c => isspace c = false) s → Forall (fun c => islinebreak c = false) s.
Proof.
  apply List.Forall_impl. intros c Hc.
  destruct (islinebreak c) eqn:E; [|reflexivity].
  apply islinebreak_isspace in E. congruence.
Qed.

Lemma concat_keep_line_not_hash (ls : list str) :
  startswith [HASH] (List.concat (List.map keep_line ls)) = false.
Proof.
  induction ls as [|l ls IH]; [reflexivity|]. simpl.
  pose proof (keep_line_not_hash l) as Hl.
  destruct (keep_line l) as [|c t]; [exact IH|].
  cbn [app startswith] in *. exact Hl.
Qed.

(** A text without white space that does not begin with [#] is its own
    condensed form. *)
Lemma condensed_content_fixed (n : str) :
  Forall (fun c => isspace c = false) n →
  startswith [HASH] n = false →
  condensed_content n = n.
Proof.
  intros Hsp Hhash. rewrite condensed_content_scan.
  rewrite scan_no_break by (apply no_space_no_break; assumption).
  simpl. unfold keep_line.
  rewrite is_comment_sub_spaces, (sub_spaces_id n Hsp), Hhash. reflexivity.
Qed.

(** The reading of a text that continues after [pre] depends on [pre]
    only through the line that [pre] leaves open. *)
Lemma scan_app_tail (pre s s' : str) : ∀ cur,
  scan (line_tail_from cur pre) s = scan (line_tail_from cur pre) s' →
  scan cur (pre ++ s) = scan cur (pre ++ s').
Proof.
  induction pre as [|c pre IH]; intros cur H; [exact H|].
  simpl in *. destruct (islinebreak c); [f_equal|]; apply IH; exact H.
Qed.

Lemma scan_cur_ext (s : str) : ∀ cur cur',
  sub_spaces cur = sub_spaces cur' → scan cur s = scan cur' s.
Proof.
  induction s as [|c s IH]; intros cur cur' H; simpl.
  - apply keep_line_sub_spaces. exact H.
  - destruct (islinebreak c).
    + f_equal. apply keep_line_sub_spaces. exact H.
    + apply IH. rewrite !sub_spaces_app, H. reflexivity.
Qed.

Lemma line_head_cons c (s : str) :
  line_head (c :: s) = if islinebreak c then [] else c :: line_head s.
Proof. unfold line_head. simpl. destruct (islinebreak c); reflexivity. Qed.

(** The reading of a text splits at the end of its first line. *)
Lemma scan_line_head (s : str) :
  (∀ cur, scan cur s
          = keep_line (cur ++ line_head s)
            ++ scan [] (skipn (S (length (line_head s))) s))
  ∨ (∀ cur, scan cur s = keep_line (cur ++ line_head s)).
Proof.
  induction s as [|c s IH].
  - right. intros cur. simpl. rewrite app_nil_r. reflexivity.
  - rewrite line_head_cons. destruct (islinebreak c) eqn:Hc.
    + left. intros cur. cbn [scan]. rewrite Hc, app_nil_r. reflexivity.
    + destruct IH as [IH|IH]; [left|right]; intros cur; cbn [scan]; rewrite Hc, IH;
        rewrite <- List.app_assoc; reflexivity.
Qed.

Lemma startswith_hash_cons c (t : str) :
  startswith [HASH] (c :: t) = (HASH =? c)%N.
Proof. cbn [startswith]. apply andb_true_r. Qed.

(** When the comment status of the text after a break is that of the
    whole line, or that text is blank, the line gives the same with the
    break as without it. *)
Lemma keep_line_split (x y : str) :
  sub_spaces y = [] ∨ is_comment y = is_comment (x ++ y) →
  keep_line (x ++ y) = keep_line x ++ keep_line y.
Proof.
  unfold keep_line. rewrite !is_comment_sub_spaces, !sub_spaces_app.
  intros [Hy|Hy].
  - rewrite Hy, !app_nil_r. reflexivity.
  - destruct (sub_spaces x) as [|a X]; [reflexivity|].
    change ((a :: X) ++ sub_spaces y) with (a :: (X ++ sub_spaces y)) in *.
    rewrite !startswith_hash_cons in *.
    destruct (sub_spaces y) as [|b Y].
    + change (startswith [HASH] []) with false in *. rewrite <- Hy.
      rewrite !app_nil_r. reflexivity.
    + rewrite startswith_hash_cons in *. rewrite Hy.
      destruct (HASH =? a)%N; reflexivity.
Qed.

Lemma scan_insert_break (x post : str) b :
  islinebreak b = true →
  sub_spaces (line_head post) = []
  ∨ is_comment (line_head post) = is_comment (x ++ line_head post) →
  scan x (b :: post) = scan x post.
Proof.
  intros Hb Hok. cbn [scan]. rewrite Hb.
  apply keep_line_split in Hok.
  destruct (scan_line_head post) as [H|H]; rewrite (H x), (H []), Hok.
  - rewrite <- List.app_assoc. reflexivity.
  - reflexivity.
Qed.

End ScanFacts.

(** C9.  Condensing is idempotent: the condensed form of a text has no
    white space left and does not begin with [#], so condensing it once
    more gives it back unchanged. *)
Theorem normalization_idempotent (s : str) :
  condensed_content (condensed_content s) = condensed_content s.
Proof.
  apply condensed_content_fixed.
  - unfold condensed_content. apply sub_spaces_no_space.
  - rewrite condensed_content_lines. apply concat_keep_line_not_hash.
Qed.

Section DifferFacts.

Lemma forallb_Forall_false (f : N → bool) (s : str) :
  forallb (fun c => negb (f c)) s = true → Forall (fun c => f c = false) s.
Proof.
  induction s as [|c s IH]; simpl; [constructor|].
  intros H. apply andb_true_iff in H as [Hc Hs].
  constructor; [apply negb_true_iff; exact Hc|apply IH; exact Hs].
Qed.

Lemma scan_app_no_break (w s cur : str) :
  no_break w = true → scan cur (w ++ s) = scan (cur ++ w) s.
Proof.
  revert cur. induction w as [|c w IH]; intros cur H; simpl in *.
  - rewrite app_nil_r. reflexivity.
  - apply andb_true_iff in H as [Hc Hw]. apply negb_true_iff in Hc.
    rewrite Hc, IH, <- List.app_assoc by assumption. reflexivity.
Qed.

Lemma indentation_spec (w : str) :
  indentation w = true → no_break w = true ∧ sub_spaces w = [].
Proof.
  induction w as [|c w IH]; simpl; [auto|].
  intros H. apply andb_true_iff in H as [Hc Hw].
  apply andb_true_iff in Hc as [Hsp Hnb].
  destruct (IH Hw) as [-> ->]. rewrite Hsp, Hnb. auto.
Qed.

Lemma scan_insert_comment (pre c post : str) :
  at_line_start pre → no_break c = true → is_comment c = true →
  scan [] (pre ++ c ++ [LF] ++ post) = scan [] (pre ++ post).
Proof.
  intros Hpre Hnb Hc. apply scan_app_tail.
  unfold at_line_start, line_tail in Hpre. rewrite Hpre.
  rewrite scan_app_no_break by assumption. cbn [app scan].
  replace (islinebreak LF) with true by reflexivity.
  unfold keep_line. rewrite Hc. reflexivity.
Qed.

Lemma scan_insert_indent (pre w post : str) :
  indentation w = true →
  scan [] (pre ++ w ++ post) = scan [] (pre ++ post).
Proof.
  intros Hw. destruct (indentation_spec w Hw) as [Hnb Hsp].
  apply scan_app_tail. rewrite scan_app_no_break by assumption.
  apply scan_cur_ext. rewrite sub_spaces_app, Hsp, app_nil_r. reflexivity.
Qed.

Lemma scan_insert_kept_break (pre post : str) b :
  islinebreak b = true → break_keeps_comments pre post →
  scan [] (pre ++ [b] ++ post) = scan [] (pre ++ post).
Proof.
  intros Hb Hok. apply scan_app_tail. apply scan_insert_break; assumption.
Qed.

Lemma differ_condensed (a b : str) :
  differ break_keeps_comments a b → condensed_content a = condensed_content b.
Proof.
  induction 1 as [s|a b _ IH|a b c _ IH1 _ IH2|pre c post H1 H2 H3
                  |pre w post _ H|pre b post H1 H2].
  - reflexivity.
  - symmetry. exact IH.
  - congruence.
  - rewrite !condensed_content_scan. symmetry. apply scan_insert_comment; assumption.
  - rewrite !condensed_content_scan. symmetry. apply scan_insert_indent; assumption.
  - rewrite !condensed_content_scan. symmetry. apply scan_insert_kept_break; assumption.
Qed.

End DifferFacts.

(** C3, as worded, fails: a line break put before a [#] in the middle of
    a line turns the rest of that line into a comment line, so the two
    blocks are condensed to different strings and get different
    fingerprints. *)
Lemma fingerprints_agree_fails : ¬ fingerprints_agree any_break.
Proof.
  intros H.
  assert (differ any_break (skipn 10 inline_text) (skipn 10 broken_text)) as Hd.
  { exact (differ_break any_break (text ["http:"%string] ++ py "  - path: /a ") LF
             (py "#x" ++ [LF]) eq_refl I). }
  specialize (H isword_ascii lower_ascii (py "/poc/g/probe.yaml") (py "/poc/h/probe.yaml")
                inline_text broken_text 10 10 inline_result broken_result
                eq_refl eq_refl Hd inline_result_value broken_result_value).
  vm_compute in H. discriminate H.
Qed.

(** C3, amended.  Two files whose request blocks differ only in comment
    lines, in indentation, or in line breaks that leave the comment lines
    as they are (what follows the break on its line is blank, or is
    comment text with the break exactly when it is without) are condensed
    to the same string and get the same fingerprint; once one of them has
    been copied, the other is counted as a duplicate. *)
Theorem comment_blind_fingerprint isword lower pa pb ca cb ia ib ra rb :
  search_req ca = Some ia → search_req cb = Some ib →
  differ break_keeps_comments (skipn ia ca) (skipn ib cb) →
  process_file isword lower pa (Some ca) = Some ra →
  process_file isword lower pb (Some cb) = Some rb →
  condensed_content (skipn ia ca) = condensed_content (skipn ib cb)
  ∧ hash ra = hash rb
  ∧ ∀ excl out s,
      snd (drain_step excl out s (Some ra)) = Copied →
      snd (drain_step excl out (fst (drain_step excl out s (Some ra))) (Some rb))
      = Duplicate.
Proof.
  intros Ha Hb Hd Hra Hrb.
  pose proof (differ_condensed _ _ Hd) as Hc.
  assert (hash ra = hash rb) as Hh.
  { unfold process_file in Hra, Hrb. rewrite Ha in Hra. rewrite Hb in Hrb.
    rewrite Hc in Hra.
    destruct (encode_utf8 _) as [bytes|]; [|discriminate].
    injection Hra as <-. injection Hrb as <-. reflexivity. }
  split; [exact Hc|]. split; [exact Hh|].
  intros excl out s Hcopied.
  destruct (drain_step_cases excl out s (Some ra))
    as [(Hn & _)|[(r & _ & _ & Ho & _)|[(r & _ & _ & _ & Ho & _)
       |(r & Hr & _ & _ & _ & Hs)]]].
  - discriminate.
  - congruence.
  - destruct Ho; congruence.
  - injection Hr as <-. unfold drain_step at 1.
    rewrite bool_decide_eq_true_2; [reflexivity|].
    rewrite Hs, <- Hh. set_solver.
Qed.

Lemma comment_blind_fingerprint_witness :
  condensed_content (skipn 35 login_a_text) = condensed_content (skipn 37 login_c_text)
  ∧ hash login_info = hash login_medium
  ∧ ∀ excl out s,
      snd (drain_step excl out s (Some login_info)) = Copied →
      snd (drain_step excl out (fst (drain_step excl out s (Some login_info)))
             (Some login_medium)) = Duplicate.
Proof.
  apply (comment_blind_fingerprint isword_ascii lower_ascii
           (py "/poc/a/login.yaml") (py "/poc/f/login.yaml")
           login_a_text login_c_text 35 37 login_info login_medium).
  - reflexivity.
  - reflexivity.
  - apply (differ_trans _ _
             (text ["http:"; "  # same request"; "  - path: /login"]%string)).
    { exact (differ_comment _ (text ["http:"%string]) (py "  # same request")
               (text ["  - path: /login"%string]) eq_refl eq_refl eq_refl). }
    apply (differ_trans _ _
             (text ["http:"; "  # same request"; "      - path: /login"]%string)).
    { exact (differ_indent _ (text ["http:"; "  # same request"]%string) (py "    ")
               (text ["  - path: /login"%string]) eq_refl eq_refl). }
    exact (differ_break _
             (text ["http:"; "  # same request"; "      - path: /login"]%string)
             LF [] eq_refl (or_introl eq_refl)).
  - vm_compute. reflexivity.
  - vm_compute. reflexivity.
Defined.

Section SignatureFacts.

Lemma req_here_spec (s : str) : req_here s = true ↔ declares_protocol s.
Proof.
  unfold req_here, declares_protocol.
  rewrite orb_true_iff, !startswith_spec. split.
  - intros [[t ->]|[t ->]]; eauto.
  - intros [t [->| ->]]; eauto.
Qed.

Lemma ends_line_spec (pre : str) : ends_line pre = true ↔ at_bol pre.
Proof.
  unfold ends_line, at_bol.
  destruct pre as [|a pre] using rev_ind.
  - simpl. split; auto.
  - rewrite rev_app_distr. simpl. rewrite N.eqb_eq. split.
    + intros ->. right. eauto.
    + intros [H|[pre' H]].
      * destruct pre; discriminate.
      * apply app_inj_tail in H as [_ H]. exact H.
Qed.

Lemma req_match_here (pre s : str) :
  req_match (pre ++ s) (length pre) ↔ ends_line pre = true ∧ req_here s = true.
Proof.
  rewrite ends_line_spec, req_here_spec. unfold req_match. split.
  - intros (pre' & blk & Heq & Hlen & Hbol & Hkw).
    apply app_inj_1 in Heq as [-> ->]; auto.
  - intros [Hbol Hkw]. exists pre, s. auto.
Qed.

Lemma search_req_from_spec (s : str) : ∀ pre,
  match search_req_from (ends_line pre) (length pre) s with
  | Some i =>
      req_match (pre ++ s) i ∧ length pre ≤ i
      ∧ ∀ j, length pre ≤ j → j < i → ¬ req_match (pre ++ s) j
  | None => ∀ j, length pre ≤ j → ¬ req_match (pre ++ s) j
  end.
Proof.
  assert (∀ pre s j, length (pre ++ s) < j → ¬ req_match (pre ++ s) j) as Hlong.
  { intros pre0 s0 j Hj (p & blk & Heq & Hlen & _).
    rewrite Heq, length_app in Hj. lia. }
  induction s as [|c s IH]; intros pre.
  - cbn [search_req_from].
    destruct (ends_line pre && req_here []) eqn:E.
    + apply andb_true_iff in E. split; [apply req_match_here; exact E|].
      split; [lia|]. intros j H1 H2. lia.
    + intros j Hj. destruct (decide (j = length pre)) as [->|Hne].
      * rewrite req_match_here, <- andb_true_iff, E. discriminate.
      * apply Hlong. rewrite length_app. simpl. lia.
  - cbn [search_req_from].
    destruct (ends_line pre && req_here (c :: s)) eqn:E.
    + apply andb_true_iff in E. split; [apply req_match_here; exact E|].
      split; [lia|]. intros j H1 H2. lia.
    + specialize (IH (pre ++ [c])).
      assert (ends_line (pre ++ [c]) = (c =? LF)%N) as Hend.
      { unfold ends_line. rewrite rev_app_distr. reflexivity. }
      rewrite Hend, length_app, <- List.app_assoc in IH. simpl in IH.
      replace (length pre + 1) with (S (length pre)) in IH by lia.
      assert (¬ req_match (pre ++ c :: s) (length pre)) as Hhere.
      { rewrite req_match_here, <- andb_true_iff, E. discriminate. }
      destruct (search_req_from (c =? LF)%N (S (length pre)) s) as [i|].
      * destruct IH as (Hm & Hle & Hfirst). split; [exact Hm|]. split; [lia|].
        intros j H1 H2. destruct (decide (j = length pre)) as [->|Hne];
          [exact Hhere|apply Hfirst; lia].
      * intros j Hj. destruct (decide (j = length pre)) as [->|Hne];
          [exact Hhere|apply IH; lia].
Qed.

(** [re.search] finds the first offset at which the pattern matches,
    and nothing when there is none. *)
Lemma search_req_spec (content : str) :
  match search_req content with
  | Some i => req_match content i ∧ ∀ j, j < i → ¬ req_match content j
  | None => ∀ j, ¬ req_match content j
  end.
Proof.
  pose proof (search_req_from_spec content []) as H. simpl in H.
  unfold search_req. change (ends_line []) with true in H.
  destruct (search_req_from true 0 content) as [i|].
  - destruct H as (Hm & _ & Hfirst). split; [exact Hm|].
    intros j Hj. apply Hfirst; lia.
  - intros j. apply H. lia.
Qed.

Lemma sub_spaces_filter (s : str) :
  sub_spaces s = List.filter (fun c => negb (isspace c)) s.
Proof.
  induction s as [|c s IH]; simpl; [reflexivity|].
  destruct (isspace c); simpl; congruence.
Qed.

(** The condensed block of the script is the NormalizedSignature. *)
Lemma condensed_content_normalized (blk : str) :
  condensed_content blk = normalized_signature blk.
Proof.
  unfold condensed_content, normalized_signature, cleaned_lines, is_comment.
  rewrite sub_spaces_join.
  induction (List.filter _ (splitlines blk)) as [|l ls IH]; [reflexivity|].
  simpl. rewrite List.filter_app, IH, sub_spaces_filter. reflexivity.
Qed.

Lemma encode_utf8_scalar (s : str) :
  Forall (fun c => is_scalar c = true) s → ∃ bytes, encode_utf8 s = Some bytes.
Proof.
  induction 1 as [|c s Hc _ [bytes IH]]; simpl; [eauto|].
  rewrite IH.
  assert (∃ bs, encode_char c = Some bs) as [bs ->]; [|eauto].
  assert (Z.of_N c < 0xD800 ∨ 0xDFFF < Z.of_N c < 0x110000)%Z as Hz.
  { unfold is_scalar in Hc. apply orb_true_iff in Hc as [Hc|Hc].
    - apply N.ltb_lt in Hc. lia.
    - apply andb_true_iff in Hc as [Hlo Hhi].
      apply N.ltb_lt in Hlo. apply N.ltb_lt in Hhi. lia. }
  unfold encode_char. cbn zeta.
  repeat match goal with
         | |- context [(?a <? ?b)%Z] => destruct (Z.ltb_spec a b)
         | |- context [(?a <=? ?b)%Z] => destruct (Z.leb_spec a b)
         end; simpl; eauto; lia.
Qed.

Lemma sub_spaces_Forall (P : N → Prop) (s : str) :
  Forall P s → Forall P (sub_spaces s).
Proof.
  induction 1 as [|c s Hc _ IH]; simpl; [constructor|].
  destruct (isspace c); [exact IH|constructor; assumption].
Qed.

Lemma scan_Forall (P : N → Prop) (s : str) : ∀ cur,
  Forall P cur → Forall P s → Forall P (scan cur s).
Proof.
  assert (∀ l, Forall P l → Forall P (keep_line l)) as Hkeep.
  { intros l Hl. unfold keep_line.
    destruct (is_comment l); [constructor|apply sub_spaces_Forall; exact Hl]. }
  induction s as [|c s IH]; intros cur Hcur Hs; simpl; [auto|].
  inversion Hs as [|? ? Hc Hs']; subst.
  destruct (islinebreak c).
  - apply Forall_app. split; [auto|]. apply IH; [constructor|exact Hs'].
  - apply IH; [|exact Hs']. apply Forall_app. split; [exact Hcur|].
    constructor; [exact Hc|constructor].
Qed.

Lemma condensed_content_scalar (content : str) i :
  Forall (fun c => is_scalar c = true) content →
  ∃ bytes, encode_utf8 (condensed_content (skipn i content)) = Some bytes.
Proof.
  intros H. apply encode_utf8_scalar. rewrite condensed_content_scan.
  apply scan_Forall; [constructor|]. apply Forall_drop. exact H.
Qed.

End SignatureFacts.

(** C2.  [process_file] looks for the first offset at which a line
    begins with [requests:] or [http:].  When there is none it returns
    the skip signal.  Otherwise the request block runs from that offset
    to the end of the text, its condensed form is the
    NormalizedSignature (comment lines removed, all white space deleted),
    and for a decoded file the result carries the MD5 hex digest of that
    string.  A result is only ever produced from a match at the start of
    a line. *)
Theorem signature_extraction isword lower file_path content :
  ((∀ i, ¬ req_match content i) →
     process_file isword lower file_path (Some content) = None)
  ∧ (∀ i, req_match content i → (∀ j, j < i → ¬ req_match content j) →
       search_req content = Some i
       ∧ condensed_content (skipn i content) = normalized_signature (skipn i content)
       ∧ (Forall (fun c => is_scalar c = true) content →
          ∃ r bytes,
            process_file isword lower file_path (Some content) = Some r
            ∧ encode_utf8 (normalized_signature (skipn i content)) = Some bytes
            ∧ hash r = Some (md5_hexdigest bytes)))
  ∧ (∀ r, process_file isword lower file_path (Some content) = Some r →
       ∃ i, search_req content = Some i ∧ req_match content i
            ∧ ∀ j, j < i → ¬ req_match content j).
Proof.
  pose proof (search_req_spec content) as Hs.
  split; [|split].
  - intros Hnone. unfold process_file.
    destruct (search_req content) as [i|]; [|reflexivity].
    destruct Hs as [Hm _]. exfalso. exact (Hnone i Hm).
  - intros i Hm Hfirst.
    assert (search_req content = Some i) as Hi.
    { destruct (search_req content) as [k|].
      - destruct Hs as [Hk Hkfirst]. f_equal.
        destruct (lt_eq_lt_dec k i) as [[Hlt|Heq]|Hgt]; [|exact Heq|].
        + exfalso. exact (Hfirst k Hlt Hk).
        + exfalso. exact (Hkfirst i Hgt Hm).
      - exfalso. exact (Hs i Hm). }
    split; [exact Hi|]. split; [apply condensed_content_normalized|].
    intros Hscalar. unfold process_file. rewrite Hi.
    destruct (condensed_content_scalar content i Hscalar) as [bytes Hb].
    rewrite Hb. eexists. exists bytes. split; [reflexivity|].
    split; [rewrite <- condensed_content_normalized; exact Hb|reflexivity].
  - intros r Hr. unfold process_file in Hr.
    destruct (search_req content) as [i|]; [|discriminate].
    exists i. destruct Hs as [Hm Hfirst]. auto.
Qed.

Section SeverityFacts.

Variable isword : char → bool.
Hypothesis Hdisj : ∀ c, isspace c = true → isword c = false.

Lemma star_then_Some {A} (p : char → bool) (k : str → option A) (s : str) r :
  star_then p k s = Some r →
  ∃ ws rest, s = ws ++ rest ∧ forallb p ws = true ∧ k rest = Some r.
Proof.
  induction s as [|c s IH]; simpl.
  { intros H. exists [], []. auto. }
  destruct (p c) eqn:Hc.
  - destruct (star_then p k s) as [r'|] eqn:E.
    + intros H. injection H as ->.
      destruct (IH eq_refl) as (ws & rest & -> & Hws & Hk).
      exists (c :: ws), rest. simpl. rewrite Hc. auto.
    + intros H. exists [], (c :: s). auto.
  - intros H. exists [], (c :: s). auto.
Qed.

Lemma star_then_reach {A} (p : char → bool) (k : str → option A) (ws rest : str) r :
  forallb p ws = true →
  match rest with [] => True | c :: _ => p c = false end →
  k rest = Some r →
  star_then p k (ws ++ rest) = Some r.
Proof.
  intros Hws Hrest Hk. induction ws as [|c ws IH]; simpl in *.
  - destruct rest as [|d rest]; simpl; [exact Hk|]. rewrite Hrest. exact Hk.
  - apply andb_true_iff in Hws as [Hc Hws]. rewrite Hc, (IH Hws). reflexivity.
Qed.

Lemma take_while_split (p : char → bool) (s : str) :
  ∃ rest, s = take_while p s ++ rest
          ∧ forallb p (take_while p s) = true
          ∧ match rest with [] => True | c :: _ => p c = false end.
Proof.
  induction s as [|c s (rest & Hs & Hall & Hrest)]; simpl.
  { exists []. auto. }
  destruct (p c) eqn:Hc.
  - exists rest. simpl. rewrite Hc, Hall. split; [congruence|auto].
  - exists (c :: s). auto.
Qed.

Lemma take_while_app (p : char → bool) (g rest : str) :
  forallb p g = true →
  match rest with [] => True | c :: _ => p c = false end →
  take_while p (g ++ rest) = g.
Proof.
  intros Hg Hrest. induction g as [|c g IH]; simpl in *.
  - destruct rest as [|d rest]; [reflexivity|]. simpl. rewrite Hrest. reflexivity.
  - apply andb_true_iff in Hg as [Hc Hg]. rewrite Hc, (IH Hg). reflexivity.
Qed.

Lemma skipn_literal (lit t : str) : skipn (length lit) (lit ++ t) = t.
Proof. induction lit; simpl; auto. Qed.

(** What the matcher returns at an offset is a match at that offset. *)
Lemma sev_here_sound (s g : str) :
  sev_here isword s = Some g → sev_match_at isword s g.
Proof.
  unfold sev_here. intros H.
  apply star_then_Some in H as (ws1 & r1 & -> & Hws1 & H).
  unfold lit_then in H.
  destruct (startswith (py "severity:") r1) eqn:Hlit; [|discriminate].
  apply startswith_spec in Hlit as [r2 ->]. rewrite skipn_literal in H.
  apply star_then_Some in H as (ws2 & r3 & -> & Hws2 & H).
  unfold word_group in H.
  destruct (take_while_split isword r3) as (rest & Hr3 & Hall & Hrest).
  destruct (take_while isword r3) as [|c g'] eqn:E; [discriminate|].
  injection H as <-.
  exists ws1, ws2, rest. rewrite Hr3 at 1.
  split; [reflexivity|]. split; [exact Hws1|]. split; [exact Hws2|].
  split; [discriminate|]. split; [exact Hall|exact Hrest].
Qed.

(** A match at an offset is the one the matcher returns there. *)
Lemma sev_here_complete (s g : str) :
  sev_match_at isword s g → sev_here isword s = Some g.
Proof.
  intros (ws1 & ws2 & rest & -> & Hws1 & Hws2 & Hne & Hg & Hrest).
  unfold sev_here.
  apply star_then_reach; [exact Hws1|reflexivity|].
  unfold lit_then.
  assert (startswith (py "severity:") (py "severity:" ++ ws2 ++ g ++ rest) = true)
    as -> by (apply startswith_spec; eauto).
  rewrite skipn_literal.
  apply star_then_reach; [exact Hws2| |].
  - destruct g as [|c g]; [congruence|]. simpl in *.
    apply andb_true_iff in Hg as [Hc _].
    destruct (isspace c) eqn:Hsp; [|reflexivity].
    apply Hdisj in Hsp. congruence.
  - unfold word_group. rewrite take_while_app by assumption.
    destruct g; [congruence|reflexivity].
Qed.

Lemma ends_line_snoc (pre : str) c : ends_line (pre ++ [c]) = (c =? LF)%N.
Proof. unfold ends_line. rewrite rev_app_distr. reflexivity. Qed.

Lemma search_sev_from_found (s : str) : ∀ pre g,
  search_sev_from isword (ends_line pre) s = Some g →
  ∃ p blk, s = p ++ blk ∧ ends_line (pre ++ p) = true
           ∧ sev_here isword blk = Some g.
Proof.
  induction s as [|c s IH]; intros pre g; cbn [search_sev_from].
  - destruct (ends_line pre) eqn:Hb; [|discriminate].
    destruct (sev_here isword []) eqn:E; [|discriminate].
    intros H. injection H as ->. exists [], []. rewrite (List.app_nil_r pre). auto.
  - destruct (if ends_line pre then sev_here isword (c :: s) else None) as [g'|] eqn:E.
    + intros H. injection H as ->.
      destruct (ends_line pre) eqn:Hb; [|discriminate].
      exists [], (c :: s). rewrite (List.app_nil_r pre). auto.
    + intros H. rewrite <- (ends_line_snoc pre) in H.
      destruct (IH (pre ++ [c]) g H) as (p & blk & -> & Hb & Hg).
      exists (c :: p), blk. rewrite <- List.app_assoc in Hb. auto.
Qed.

Lemma search_sev_from_first (p : str) : ∀ pre blk g,
  ends_line (pre ++ p) = true →
  sev_here isword blk = Some g →
  (∀ p1 p2, p = p1 ++ p2 → p2 ≠ [] → ends_line (pre ++ p1) = true →
            sev_here isword (p2 ++ blk) = None) →
  search_sev_from isword (ends_line pre) (p ++ blk) = Some g.
Proof.
  induction p as [|c p IH]; intros pre blk g Hb Hg Hfirst.
  - rewrite app_nil_r in Hb. simpl.
    destruct blk; cbn [search_sev_from]; rewrite Hb, Hg; reflexivity.
  - change ((c :: p) ++ blk) with (c :: (p ++ blk)). cbn [search_sev_from].
    assert ((if ends_line pre then sev_here isword (c :: p ++ blk) else None) = None)
      as ->.
    { destruct (ends_line pre) eqn:E; [|reflexivity].
      apply (Hfirst [] (c :: p)); [reflexivity|discriminate|].
      rewrite app_nil_r. exact E. }
    rewrite <- (ends_line_snoc pre). apply IH; [rewrite <- List.app_assoc; exact Hb|exact Hg|].
    intros p1 p2 -> Hne Hb1. apply (Hfirst (c :: p1) p2); [reflexivity|exact Hne|].
    rewrite <- List.app_assoc in Hb1. exact Hb1.
Qed.

(** [re.search] on the severity pattern: group 1 of the leftmost match,
    and nothing when no offset matches. *)
Lemma search_sev_spec (content : str) :
  ((∀ i g, ¬ sev_match isword content i g) → search_sev isword content = None)
  ∧ (∀ i g, sev_match isword content i g →
            (∀ j g', j < i → ¬ sev_match isword content j g') →
            search_sev isword content = Some g).
Proof.
  unfold search_sev. change true with (ends_line []). split.
  - intros Hnone.
    destruct (search_sev_from isword (ends_line []) content) as [g|] eqn:E;
      [|reflexivity].
    apply search_sev_from_found in E as (p & blk & -> & Hb & Hg).
    exfalso. apply (Hnone (length p) g). exists p, blk.
    split; [reflexivity|]. split; [reflexivity|].
    split; [apply ends_line_spec; exact Hb|apply sev_here_sound; exact Hg].
  - intros i g (pre & blk & -> & Hlen & Hbol & Hm) Hfirst.
    apply search_sev_from_first.
    + apply ends_line_spec. exact Hbol.
    + apply sev_here_complete. exact Hm.
    + intros p1 p2 -> Hne Hb1.
      destruct (sev_here isword (p2 ++ blk)) as [g'|] eqn:E; [|reflexivity].
      exfalso. apply (Hfirst (length p1) g').
      * rewrite <- Hlen, length_app. destruct p2; [congruence|simpl; lia].
      * exists p1, (p2 ++ blk). rewrite <- List.app_assoc.
        split; [reflexivity|]. split; [reflexivity|].
        split; [apply ends_line_spec; exact Hb1|apply sev_here_sound; exact E].
Qed.

End SeverityFacts.

Lemma isword_ascii_not_space c : isspace c = true → isword_ascii c = false.
Proof.
  intros Hsp. destruct (isword_ascii c) eqn:Hw; [exfalso|reflexivity].
  unfold isspace in Hsp. unfold isword_ascii in Hw.
  rewrite !orb_true_iff, !andb_true_iff, !N.leb_le, !N.eqb_eq in Hsp.
  rewrite !orb_true_iff, !andb_true_iff, !N.leb_le, !N.eqb_eq in Hw. lia.
Qed.

(** C7.  The severity of a result is the lower-cased text of group 1 of
    the leftmost match of the severity pattern in multiline mode, and
    the string [unknown] when the pattern matches nowhere.  (No white
    space character is a word character.) *)
Theorem severity_extraction isword lower file_path content r :
  (∀ c, isspace c = true → isword c = false) →
  process_file isword lower file_path (Some content) = Some r →
  ((∀ i g, ¬ sev_match isword content i g) → severity r = py "unknown")
  ∧ (∀ i g, sev_match isword content i g →
            (∀ j g', j < i → ¬ sev_match isword content j g') →
            severity r = lower g).
Proof.
  intros Hdisj Hr. unfold process_file in Hr.
  destruct (search_req content) as [start|]; [|discriminate].
  destruct (encode_utf8 _) as [bytes|]; [|discriminate].
  injection Hr as <-. simpl.
  destruct (search_sev_spec isword Hdisj content) as [Hnone Hsome]. split.
  - intros H. rewrite (Hnone H). reflexivity.
  - intros i g Hm Hfirst. rewrite (Hsome i g Hm Hfirst). reflexivity.
Qed.

Lemma severity_extraction_witness :
  ((∀ i g, ¬ sev_match isword_ascii login_b_text i g) →
     severity login_high = py "unknown")
  ∧ (∀ i g, sev_match isword_ascii login_b_text i g →
            (∀ j g', j < i → ¬ sev_match isword_ascii login_b_text j g') →
            severity login_high = lower_ascii g).
Proof.
  apply (severity_extraction isword_ascii lower_ascii (py "/poc/b/login.yaml")
           login_b_text login_high).
  - exact isword_ascii_not_space.
  - vm_compute. reflexivity.
Defined.

Section RunExtras.

Variable excl : list str.
Variable out : str.

#[local] Arguments drain_step : simpl never.


Lemma drain_app_snd s l1 l2 :
  snd (drain excl out s (l1 ++ l2))
  = snd (drain excl out s l1) ++ snd (drain excl out (fst (drain excl out s l1)) l2).
Proof.
  revert s. induction l1 as [|res l1 IH]; intros s; [reflexivity|].
  change ((res :: l1) ++ l2) with (res :: (l1 ++ l2)).
  rewrite !drain_cons. cbn zeta. simpl fst. simpl snd. rewrite IH. reflexivity.
Qed.

Lemma drain_copy_log s results :
  copy_log (fst (drain excl out s results))
  = rev (copies_of out results (snd (drain excl out s results))) ++ copy_log s.
Proof.
  revert s. induction results as [|res rest IH]; intros s; [reflexivity|].
  rewrite drain_cons. cbn zeta. simpl fst. simpl snd. rewrite IH.
  generalize (drain excl out (fst (drain_step excl out s res)) rest). intros d.
  unfold drain_step. destruct res as [r|]; [|reflexivity].
  destruct (bool_decide (hash r ∈ seen_hashes s)); [reflexivity|].
  destruct (bool_decide (severity r ∈ excl)); [reflexivity|].
  destruct (skip_keyword r); [reflexivity|].
  simpl. rewrite <- List.app_assoc. reflexivity.
Qed.

Lemma copies_of_length results os :
  length (copies_of out results os) = length (added_hashes results os).
Proof.
  revert os. induction results as [|[r|] rest IH]; intros [|[] os]; simpl; auto.
Qed.

(** The outcome of iteration [i] is that of one step from the state
    reached after the first [i] results. *)
Lemma drain_lookup_state s results i res :
  results !! i = Some res →
  snd (drain excl out s results) !! i
  = Some (snd (drain_step excl out (fst (drain excl out s (take i results))) res)).
Proof.
  revert s i. induction results as [|x rest IH]; intros s i Hi; [discriminate|].
  rewrite drain_cons. cbn zeta. simpl snd.
  destruct i as [|i]; simpl in Hi.
  - injection Hi as ->. reflexivity.
  - cbn [take]. rewrite drain_cons. cbn zeta. simpl fst. simpl. apply IH. exact Hi.
Qed.

End RunExtras.

(** X1.  Every result drained is counted exactly once: at the end of a
    run the five counters add up to the number of results, the error
    count is the number of results that are [None], and the copied count
    is both the number of fingerprints in [seen_hashes] and the number of
    [shutil.copy2] calls made. *)
Theorem run_accounting excl out results :
  let s := run excl out results in
  total (counters s) = length results
  ∧ error (counters s) = failures results
  ∧ copied (counters s) = size (seen_hashes s)
  ∧ copied (counters s) = length (copy_log s).
Proof.
  cbn zeta. unfold run.
  destruct (drain_counters excl out initial results) as (Hc & He & Ht).
  simpl in Hc, He, Ht.
  split; [exact Ht|]. split; [exact He|]. split.
  - fold (run excl out results). rewrite run_copied.
    destruct (run_added excl out results) as [_ ->]. reflexivity.
  - rewrite Hc, drain_copy_log. simpl. rewrite app_nil_r, length_rev.
    symmetry. apply copies_of_length.
Qed.


(** X3.  Once a file has been copied, every later result with the same
    fingerprint is counted as a duplicate, whatever its severity and its
    keyword flag. *)
Theorem later_twin_is_duplicate excl out s results i j r1 r2 :
  results !! i = Some (Some r1) →
  snd (drain excl out s results) !! i = Some Copied →
  i < j →
  results !! j = Some (Some r2) →
  hash r2 = hash r1 →
  snd (drain excl out s results) !! j = Some Duplicate.
Proof.
  intros Hi Hcopied Hij Hj Hh.
  rewrite (drain_lookup_state excl out s results j _ Hj). f_equal.
  assert (hash r2 ∈ seen_hashes (fst (drain excl out s (take j results)))) as Hin.
  { rewrite drain_seen. apply elem_of_union. left. apply elem_of_list_to_set.
    rewrite Hh. clear Hj Hh r2.
    assert (i < length (take j results)) as Hlen.
    { pose proof (lookup_lt_Some _ _ _ Hi). rewrite length_take. lia. }
    assert (snd (drain excl out s results)
            = snd (drain excl out s (take j results))
              ++ snd (drain excl out (fst (drain excl out s (take j results)))
                        (drop j results))) as Hsplit.
    { rewrite <- drain_app_snd, take_drop. reflexivity. }
    rewrite Hsplit in Hcopied.
    rewrite lookup_app_l in Hcopied by (rewrite drain_length; exact Hlen).
    rewrite <- (take_drop j results) in Hi.
    rewrite lookup_app_l in Hi by exact Hlen.
    clear Hsplit Hlen.
    revert Hi Hcopied. generalize (take j results). clear. intros l.
    revert s i. induction l as [|x l IH]; intros s i Hi Hc; [discriminate|].
    rewrite drain_cons in *. cbn zeta in *. simpl snd in *.
    destruct i as [|i]; simpl in Hi, Hc.
    - injection Hi as ->. injection Hc as Hc. simpl. rewrite Hc.
      apply elem_of_cons. left. reflexivity.
    - specialize (IH _ _ Hi Hc). simpl.
      destruct x as [rx|]; [|exact IH].
      destruct (snd (drain_step excl out s (Some rx))); try exact IH.
      apply elem_of_cons. right. exact IH. }
  unfold drain_step. rewrite bool_decide_eq_true_2 by exact Hin. reflexivity.
Qed.

Lemma later_twin_is_duplicate_witness :
  snd (drain [py "info"] (py "/kept") initial
         [Some login_high; poc_other; Some login_info]) !! 2 = Some Duplicate.
Proof.
  apply (later_twin_is_duplicate [py "info"] (py "/kept") initial
           [Some login_high; poc_other; Some login_info] 0 2 login_high login_info).
  - reflexivity.
  - vm_compute. reflexivity.
  - lia.
  - reflexivity.
  - reflexivity.
Defined.

Section SurvivorFacts.

Variable excl : list str.
Variable out : str.

Lemma elem_of_rev {A} (x : A) (l : list A) : x ∈ rev l ↔ x ∈ l.
Proof. rewrite !list_elem_of_In. symmetry. apply in_rev. Qed.

Lemma copies_of_elem (x : str * str) results : ∀ os,
  x ∈ copies_of out results os
  ↔ ∃ i r, results !! i = Some (Some r) ∧ os !! i = Some Copied
           ∧ x = (path r, path_join out (filename r)).
Proof.
  induction results as [|res rest IH]; intros os.
  { simpl. split; [intros H; inversion H|]. intros (i & r & Hi & _). discriminate. }
  destruct os as [|o os].
  { destruct res as [rx|]; simpl; (split; [intros H; inversion H|]);
      intros (i & r & _ & Hi & _); discriminate. }
  assert (x ∈ copies_of out rest os
          ↔ ∃ i r, (res :: rest) !! S i = Some (Some r) ∧ (o :: os) !! S i = Some Copied
                   ∧ x = (path r, path_join out (filename r))) as Htail.
  { rewrite IH. reflexivity. }
  assert (∀ P : nat → result → Prop,
            (∃ i r, P i r) ↔ (∃ r, P 0 r) ∨ (∃ i r, P (S i) r)) as Hsplit.
  { intros P. split.
    - intros ([|i] & r & H); eauto.
    - intros [(r & H)|(i & r & H)]; eauto. }
  rewrite Hsplit, <- Htail. clear Hsplit Htail IH.
  destruct res as [rx|]; simpl.
  - destruct o; simpl;
      try (split; [auto|]; intros [(r0 & _ & H & _)|H]; [discriminate|exact H]).
    rewrite elem_of_cons. split.
    + intros [->|H]; [left; eauto|right; exact H].
    + intros [(r0 & Hr & _ & ->)|H]; [left|right; exact H].
      injection Hr as ->. reflexivity.
  - destruct o; (split; [auto|]; intros [(r0 & H & _)|H]; [discriminate|exact H]).
Qed.

Lemma copy_log_spec_aux (src dst : str) results :
  (src, dst) ∈ copy_log (run excl out results) →
  ∃ r, Some r ∈ results ∧ src = path r ∧ dst = path_join out (filename r).
Proof.
  unfold run. rewrite drain_copy_log. simpl. rewrite app_nil_r.
  rewrite elem_of_rev, copies_of_elem.
  intros (i & r & Hi & _ & Heq). injection Heq as -> ->.
  exists r. split; [|auto]. apply list_elem_of_lookup. eauto.
Qed.

End SurvivorFacts.

(** X4.  Of the results with one fingerprint, the one that is copied is
    the first, in the order in which the results are drained, that is
    neither of an excluded severity nor flagged by the keyword scan. *)
Theorem first_eligible_is_copied excl out results i r :
  results !! i = Some (Some r) →
  eligible excl r = true →
  (∀ j r', j < i → results !! j = Some (Some r') → eligible excl r' = true →
           hash r' ≠ hash r) →
  snd (drain excl out initial results) !! i = Some Copied.
Proof.
  intros Hi Hel Hfirst.
  rewrite (drain_lookup_state excl out initial results i _ Hi). f_equal.
  set (si := fst (drain excl out initial (take i results))).
  assert (hash r ∉ seen_hashes si) as Hnew.
  { unfold si. rewrite drain_seen_eligible. simpl. rewrite (right_id_L ∅ (∪)).
    rewrite elem_of_list_to_set, elem_of_eligible_hashes.
    intros (r' & Hin & Hh & Hel').
    apply list_elem_of_lookup in Hin as [j Hj].
    pose proof (lookup_lt_Some _ _ _ Hj) as Hlt. rewrite length_take in Hlt.
    rewrite lookup_take_lt in Hj by lia.
    apply (Hfirst j r'); [lia|exact Hj|exact Hel'|exact Hh]. }
  destruct (drain_step_cases excl out si (Some r))
    as [(Hn & _)|[(r0 & Hr & Hin & _)|[(r0 & Hr & _ & He & _)
       |(r0 & _ & _ & _ & Ho & _)]]].
  - discriminate.
  - injection Hr as <-. contradiction.
  - injection Hr as <-. congruence.
  - exact Ho.
Qed.

Lemma first_eligible_is_copied_witness :
  snd (drain [py "info"] (py "/kept") initial
         [Some login_info; poc_nosig; Some login_high; Some login_medium]) !! 2
  = Some Copied.
Proof.
  apply (first_eligible_is_copied [py "info"] (py "/kept")
           [Some login_info; poc_nosig; Some login_high; Some login_medium] 2 login_high).
  - reflexivity.
  - vm_compute. reflexivity.
  - intros [|[|j]] r' Hj Hr' Hel; [| |lia].
    + injection Hr' as <-. vm_compute in Hel. discriminate.
    + vm_compute in Hr'. discriminate.
Defined.

(** X5.  The copies a run makes are exactly those of the results whose
    iteration took the copying branch, each from the path of the result
    to the output directory joined with its file name. *)
Theorem copy_log_spec excl out results src dst :
  (src, dst) ∈ copy_log (run excl out results)
  ↔ ∃ i r, results !! i = Some (Some r)
           ∧ snd (drain excl out initial results) !! i = Some Copied
           ∧ src = path r ∧ dst = path_join out (filename r).
Proof.
  unfold run. rewrite drain_copy_log. simpl. rewrite app_nil_r.
  rewrite elem_of_rev, copies_of_elem. split.
  - intros (i & r & Hi & Ho & Heq). injection Heq as -> ->. eauto 10.
  - intros (i & r & Hi & Ho & -> & ->). eauto 10.
Qed.

(** X6.  For results that come from [process_file], the destination of
    every copy is the output directory joined with the base name of the
    source path; so two kept files with the same base name are copied to
    the same destination. *)
Theorem copy_destination isword lower excl out (files : list (str * option str))
    src dst :
  let results := List.map (fun f => process_file isword lower (fst f) (snd f)) files in
  (src, dst) ∈ copy_log (run excl out results) →
  dst = path_join out (basename src)
  ∧ ∀ src' dst', (src', dst') ∈ copy_log (run excl out results) →
                 basename src' = basename src → dst' = dst.
Proof.
  cbn zeta. set (results := List.map _ files).
  assert (∀ s d, (s, d) ∈ copy_log (run excl out results) →
                 d = path_join out (basename s)) as Hdst.
  { intros s d Hin. apply copy_log_spec_aux in Hin as (r & Hr & -> & ->).
    apply list_elem_of_In, in_map_iff in Hr as ([p read] & Hp & _). simpl in Hp.
    unfold process_file in Hp.
    destruct read as [content|]; [|discriminate].
    destruct (search_req content); [|discriminate].
    destruct (encode_utf8 _); [|discriminate].
    injection Hp as <-. reflexivity. }
  intros Hin. split; [apply Hdst; exact Hin|].
  intros src' dst' Hin' Hb. rewrite (Hdst _ _ Hin), (Hdst _ _ Hin'), Hb. reflexivity.
Qed.

Lemma copy_destination_witness :
  py "/kept/login.yaml" = path_join (py "/kept") (basename (py "/poc/b/login.yaml"))
  ∧ ∀ src' dst',
      (src', dst')
        ∈ copy_log (run [py "info"] (py "/kept")
                      (List.map (fun f => process_file isword_ascii lower_ascii (fst f) (snd f))
                         [(py "/poc/b/login.yaml", Some login_b_text)])) →
      basename src' = basename (py "/poc/b/login.yaml") →
      dst' = py "/kept/login.yaml".
Proof.
  apply (copy_destination isword_ascii lower_ascii [py "info"] (py "/kept")
           [(py "/poc/b/login.yaml", Some login_b_text)]
           (py "/poc/b/login.yaml") (py "/kept/login.yaml")).
  vm_compute. apply elem_of_cons. left. reflexivity.
Defined.

Section CondensedFacts.

Lemma scan_starts_with_line (s cur : str) :
  ∃ tail, scan cur s = keep_line (cur ++ line_head s) ++ tail.
Proof.
  destruct (scan_line_head s) as [H|H]; rewrite (H cur); eauto.
  exists []. rewrite app_nil_r. reflexivity.
Qed.

Lemma keep_line_keyword (kw l : str) c kw' :
  kw = c :: kw' → isspace c = false → (HASH =? c)%N = false →
  sub_spaces kw = kw →
  keep_line (kw ++ l) = kw ++ sub_spaces l.
Proof.
  intros -> Hc Hh Hkw. unfold keep_line.
  rewrite is_comment_sub_spaces, sub_spaces_app, Hkw.
  change ((c :: kw') ++ sub_spaces l) with (c :: (kw' ++ sub_spaces l)).
  rewrite startswith_hash_cons, Hh. reflexivity.
Qed.

Lemma condensed_block_keyword (blk : str) :
  declares_protocol blk → declares_protocol (condensed_content blk).
Proof.
  intros [t [->| ->]]; rewrite condensed_content_scan.
  - rewrite scan_app_no_break by reflexivity. simpl app.
    destruct (scan_starts_with_line t (py "requests:")) as [tail ->].
    rewrite (keep_line_keyword (py "requests:") _ 114%N (py "equests:"))
      by reflexivity.
    exists (sub_spaces (line_head t) ++ tail). left.
    rewrite <- List.app_assoc. reflexivity.
  - rewrite scan_app_no_break by reflexivity. simpl app.
    destruct (scan_starts_with_line t (py "http:")) as [tail ->].
    rewrite (keep_line_keyword (py "http:") _ 104%N (py "ttp:")) by reflexivity.
    exists (sub_spaces (line_head t) ++ tail). right.
    rewrite <- List.app_assoc. reflexivity.
Qed.

Lemma skipn_app_length {A} (pre blk : list A) : skipn (length pre) (pre ++ blk) = blk.
Proof. induction pre; simpl; auto. Qed.

Lemma scan_crlf (s : str) : ∀ cur, scan cur (crlf s) = scan cur s.
Proof.
  induction s as [|c s IH]; intros cur; [reflexivity|].
  unfold crlf in *. cbn [flat_map].
  destruct (N.eqb_spec c LF) as [->|Hne].
  - cbn [app scan]. replace (islinebreak CR) with true by reflexivity.
    replace (islinebreak LF) with true by reflexivity.
    rewrite keep_line_nil. cbn [app]. rewrite IH. reflexivity.
  - cbn [app scan]. destruct (islinebreak c); rewrite IH; reflexivity.
Qed.

Lemma is_comment_lstrip_eq (l : str) : is_comment l = startswith [HASH] (lstrip l).
Proof.
  rewrite is_comment_sub_spaces. induction l as [|c l IH]; [reflexivity|].
  simpl. destruct (isspace c) eqn:Hc; [exact IH|]. reflexivity.
Qed.

End CondensedFacts.

(** X7.  The string that is hashed is never empty: it begins with the
    keyword and colon that opened the request block, and it holds no
    white-space character. *)
Theorem hashed_string_shape content start :
  search_req content = Some start →
  declares_protocol (condensed_content (skipn start content))
  ∧ Forall (fun c => isspace c = false) (condensed_content (skipn start content)).
Proof.
  intros Hs. split; [|unfold condensed_content; apply sub_spaces_no_space].
  pose proof (search_req_spec content) as H. rewrite Hs in H.
  destruct H as [(pre & blk & -> & <- & _ & Hkw) _].
  rewrite skipn_app_length. apply condensed_block_keyword. exact Hkw.
Qed.

Lemma hashed_string_shape_witness :
  declares_protocol (condensed_content (skipn 35 login_a_text))
  ∧ Forall (fun c => isspace c = false) (condensed_content (skipn 35 login_a_text)).
Proof. apply (hashed_string_shape login_a_text 35). reflexivity. Defined.

(** X8.  White space that stays within a line is dropped wherever it
    stands, inside a value as well as in the indentation: two blocks
    that differ only in such white space are condensed to the same
    string. *)
Theorem inline_space_ignored (pre w post : str) :
  indentation w = true →
  condensed_content (pre ++ w ++ post) = condensed_content (pre ++ post).
Proof.
  intros Hw. rewrite !condensed_content_scan. apply scan_insert_indent. exact Hw.
Qed.

Lemma inline_space_ignored_witness :
  condensed_content (py "http: /a" ++ py "  " ++ py "b")
  = condensed_content (py "http: /a" ++ py "b").
Proof. apply (inline_space_ignored (py "http: /a") (py "  ") (py "b")). reflexivity. Defined.

(** X9.  The condensed string does not depend on the line-ending style:
    a block with CR LF line ends is condensed to the same string as the
    block with LF line ends. *)
Theorem line_ending_ignored (s : str) :
  condensed_content (crlf s) = condensed_content s.
Proof. rewrite !condensed_content_scan. apply scan_crlf. Qed.

(** X10.  A line is dropped as a comment exactly when its first
    character that is not white space is [#]; white space at the end of
    the line plays no part, and a [#] further on in a line does not make
    it a comment line. *)
Theorem comment_line_iff (line : str) :
  is_comment line = true
  ↔ ∃ ws rest, line = ws ++ HASH :: rest ∧ forallb isspace ws = true.
Proof.
  rewrite is_comment_lstrip_eq. induction line as [|c line IH].
  - simpl. split; [discriminate|]. intros (ws & rest & H & _).
    destruct ws; discriminate.
  - cbn [lstrip]. destruct (isspace c) eqn:Hc.
    + rewrite IH. split.
      * intros (ws & rest & -> & Hws). exists (c :: ws), rest. simpl.
        rewrite Hc, Hws. auto.
      * intros (ws & rest & H & Hws). destruct ws as [|d ws]; simpl in *.
        -- injection H as -> _. discriminate.
        -- injection H as -> ->. apply andb_true_iff in Hws as [_ Hws]. eauto.
    + rewrite startswith_hash_cons, N.eqb_eq. split.
      * intros <-. exists [], line. auto.
      * intros (ws & rest & H & Hws). destruct ws as [|d ws]; simpl in *.
        -- injection H as -> _. reflexivity.
        -- injection H as -> _. apply andb_true_iff in Hws as [Hd _]. congruence.
Qed.

Section PathFacts.

Lemma endswith_spec (suffix s : str) :
  endswith suffix s = true ↔ ∃ stem, s = stem ++ suffix.
Proof.
  unfold endswith. rewrite startswith_spec. split.
  - intros [t Ht]. exists (rev t).
    rewrite <- (rev_involutive s), Ht, rev_app_distr, rev_involutive. reflexivity.
  - intros [stem ->]. exists (rev stem). apply rev_app_distr.
Qed.

Lemma startswith_hash_cons_gen a c (t : str) :
  startswith [a] (c :: t) = (a =? c)%N.
Proof. cbn [startswith]. apply andb_true_r. Qed.

Lemma no_slash_cons c (name : str) :
  no_slash (c :: name) = true ↔ (SLASH =? c)%N = false ∧ no_slash name = true.
Proof.
  unfold no_slash. cbn [existsb].
  rewrite !negb_true_iff, orb_false_iff. reflexivity.
Qed.

Lemma basename_no_slash (p : str) : no_slash p = true → basename p = p.
Proof.
  destruct p as [|c rest]; [reflexivity|].
  rewrite no_slash_cons. intros [Hc Hrest].
  unfold no_slash in Hrest. rewrite negb_true_iff in Hrest.
  cbn [basename]. rewrite Hrest, N.eqb_sym, Hc. reflexivity.
Qed.

Lemma basename_after_slash (a name : str) :
  no_slash name = true → basename (a ++ SLASH :: name) = name.
Proof.
  unfold no_slash. rewrite negb_true_iff. intros Hname.
  induction a as [|c a IH]; cbn [app basename].
  - rewrite Hname, N.eqb_refl. reflexivity.
  - rewrite existsb_app. cbn [existsb]. rewrite N.eqb_refl, orb_true_r. exact IH.
Qed.

End PathFacts.

(** X11.  Joining a directory and a file name and taking the base name
    gives the file name back, so the [filename] of a result is the name
    [os.walk] listed. *)
Theorem basename_path_join (root name : str) :
  no_slash name = true → basename (path_join root name) = name.
Proof.
  intros Hname. unfold path_join.
  assert (startswith [SLASH] name = false) as ->.
  { destruct name as [|c name]; [reflexivity|].
    apply no_slash_cons in Hname as [Hc _].
    rewrite startswith_hash_cons_gen. exact Hc. }
  destruct root as [|c root _] using rev_ind.
  - cbn [rev app]. apply basename_no_slash. exact Hname.
  - rewrite rev_app_distr. cbn [rev app].
    destruct (N.eqb_spec c SLASH) as [->|Hne].
    + rewrite <- List.app_assoc. apply basename_after_slash. exact Hname.
    + apply (basename_after_slash (root ++ [c]) name). exact Hname.
Qed.

Lemma basename_path_join_witness :
  basename (path_join (py "/poc/a") (py "login.yaml")) = py "login.yaml".
Proof. apply (basename_path_join (py "/poc/a") (py "login.yaml")). reflexivity. Defined.

(** X12.  The files handed to [process_file] are the files of the walk
    whose name ends with [.yaml] or [.yml], spelled exactly so, each
    joined with its directory, in the order of the walk; the base name of
    each is that file name. *)
Theorem collect_spec (walk : list (str * list str * list str)) (p : str) :
  (∀ root dirs files name,
     (root, dirs, files) ∈ walk → name ∈ files → no_slash name = true) →
  (p ∈ collect walk
   ↔ ∃ root dirs files name,
       (root, dirs, files) ∈ walk ∧ name ∈ files
       ∧ (∃ stem, name = stem ++ py ".yaml" ∨ name = stem ++ py ".yml")
       ∧ p = path_join root name)
  ∧ (p ∈ collect walk →
     ∃ stem, basename p = stem ++ py ".yaml" ∨ basename p = stem ++ py ".yml").
Proof.
  intros Hnames.
  assert (p ∈ collect walk
          ↔ ∃ root dirs files name,
              (root, dirs, files) ∈ walk ∧ name ∈ files
              ∧ (∃ stem, name = stem ++ py ".yaml" ∨ name = stem ++ py ".yml")
              ∧ p = path_join root name) as Hiff.
  { unfold collect. rewrite list_elem_of_In, in_flat_map. split.
    - intros ([[root dirs] files] & Hw & Hp).
      apply in_map_iff in Hp as (name & <- & Hn).
      apply filter_In in Hn as [Hn Ht].
      exists root, dirs, files, name. rewrite !list_elem_of_In.
      split; [exact Hw|]. split; [exact Hn|]. split; [|reflexivity].
      unfold is_template in Ht. apply orb_true_iff in Ht.
      destruct Ht as [Ht|Ht]; apply endswith_spec in Ht as [stem ->]; eauto.
    - intros (root & dirs & files & name & Hw & Hn & [stem Hext] & ->).
      exists (root, dirs, files). rewrite <- list_elem_of_In. split; [exact Hw|].
      apply in_map. apply filter_In. rewrite <- list_elem_of_In. split; [exact Hn|].
      unfold is_template. apply orb_true_iff.
      destruct Hext as [->| ->]; [left|right]; apply endswith_spec; eauto. }
  split; [exact Hiff|].
  intros Hp. apply Hiff in Hp as (root & dirs & files & name & Hw & Hn & Hext & ->).
  rewrite basename_path_join by (eapply Hnames; eassumption). exact Hext.
Qed.

Lemma collect_spec_witness :
  (py "/poc/a/login.yaml"
     ∈ collect [(py "/poc/a", [py "old"], [py "login.yaml"; py "notes.txt"])]
   ↔ ∃ root dirs files name,
       (root, dirs, files) ∈ [(py "/poc/a", [py "old"], [py "login.yaml"; py "notes.txt"])]
       ∧ name ∈ files
       ∧ (∃ stem, name = stem ++ py ".yaml" ∨ name = stem ++ py ".yml")
       ∧ py "/poc/a/login.yaml" = path_join root name)
  ∧ (py "/poc/a/login.yaml"
       ∈ collect [(py "/poc/a", [py "old"], [py "login.yaml"; py "notes.txt"])] →
     ∃ stem, basename (py "/poc/a/login.yaml") = stem ++ py ".yaml"
             ∨ basename (py "/poc/a/login.yaml") = stem ++ py ".yml").
Proof.
  apply (collect_spec [(py "/poc/a", [py "old"], [py "login.yaml"; py "notes.txt"])]
           (py "/poc/a/login.yaml")).
  intros root dirs files name Hw Hn.
  apply list_elem_of_singleton in Hw. injection Hw as -> -> ->.
  apply elem_of_cons in Hn as [->|Hn]; [reflexivity|].
  apply list_elem_of_singleton in Hn. subst name. reflexivity.
Defined.

Example decode_ex1 :
  decode_utf8 [0x68; 0xC3; 0xA9; 0xE2; 0x82; 0xAC; 0xF0; 0x9F; 0x98; 0x80]%Z
  = Some [104; 233; 8364; 128512]%N.
Proof. reflexivity. Qed.

Example decode_ex2 :
  List.map decode_utf8
    [[0xC0; 0x80]; [0xED; 0xA0; 0x80]; [0xF4; 0x90; 0x80; 0x80]; [0xE2; 0x82]; [0x80]]%Z
  = [None; None; None; None; None].
Proof. reflexivity. Qed.

Example translate_ex1 :
  translate_newlines (py "a" ++ [CR; LF] ++ py "b" ++ [CR] ++ py "c" ++ [CR])
  = py "a" ++ [LF] ++ py "b" ++ [LF] ++ py "c" ++ [LF].
Proof. reflexivity. Qed.

Section ReadFacts.

Lemma is_scalar_of_Z (z : Z) :
  (0 <= z)%Z → (z < 0xD800 ∨ 0xDFFF < z < 0x110000)%Z →
  is_scalar (Z.to_N z) = true.
Proof.
  intros H0 H. unfold is_scalar.
  rewrite orb_true_iff, andb_true_iff, !N.ltb_lt. lia.
Qed.

Lemma cons_char_Some z rest s :
  cons_char z rest = Some s → ∃ s', rest = Some s' ∧ s = Z.to_N z :: s'.
Proof. destruct rest as [s'|]; simpl; [|discriminate]. intros H. injection H as <-. eauto. Qed.

Ltac bool_to_prop H :=
  repeat first
    [ rewrite andb_true_iff in H
    | rewrite Z.leb_le in H
    | rewrite Z.ltb_lt in H
    | rewrite Z.eqb_eq in H ].

Lemma second3_range b0 b1 :
  (0xE0 <= b0 <= 0xEF)%Z → second3 b0 b1 = true →
  (0x80 <= b1 <= 0xBF)%Z
  ∧ (b0 = 0xE0 → 0xA0 <= b1)%Z ∧ (b0 = 0xED → b1 <= 0x9F)%Z.
Proof.
  intros Hb0. unfold second3, cont.
  destruct (Z.eqb_spec b0 0xE0); [|destruct (Z.eqb_spec b0 0xED)];
    intros H; bool_to_prop H; lia.
Qed.

Lemma second4_range b0 b1 :
  (0xF0 <= b0 <= 0xF4)%Z → second4 b0 b1 = true →
  (0x80 <= b1 <= 0xBF)%Z
  ∧ (b0 = 0xF0 → 0x90 <= b1)%Z ∧ (b0 = 0xF4 → b1 <= 0x8F)%Z.
Proof.
  intros Hb0. unfold second4, cont.
  destruct (Z.eqb_spec b0 0xF0); [|destruct (Z.eqb_spec b0 0xF4)];
    intros H; bool_to_prop H; lia.
Qed.

Lemma decode_utf8_scalar_bounded n : ∀ bs s,
  length bs ≤ n → decode_utf8 bs = Some s → Forall (fun c => is_scalar c = true) s.
Proof.
  induction n as [|n IH]; intros bs s Hlen Hs.
  { destruct bs; [|simpl in Hlen; lia]. injection Hs as <-. constructor. }
  destruct bs as [|b0 t0]; [injection Hs as <-; constructor|].
  cbn [decode_utf8] in Hs. simpl in Hlen.
  destruct ((0 <=? b0)%Z && (b0 <? 0x80)%Z) eqn:H1.
  { apply cons_char_Some in Hs as (s' & Hs' & ->). bool_to_prop H1.
    constructor; [apply is_scalar_of_Z; lia|]. apply (IH t0); [lia|exact Hs']. }
  destruct t0 as [|b1 t1]; [discriminate|]. simpl in Hlen.
  destruct ((0xC2 <=? b0)%Z && (b0 <=? 0xDF)%Z) eqn:H2.
  { destruct (cont b1) eqn:Hc1; [|discriminate].
    apply cons_char_Some in Hs as (s' & Hs' & ->).
    unfold cont in Hc1. bool_to_prop H2. bool_to_prop Hc1.
    constructor; [apply is_scalar_of_Z; lia|]. apply (IH t1); [lia|exact Hs']. }
  destruct t1 as [|b2 t2]; [discriminate|]. simpl in Hlen.
  destruct ((0xE0 <=? b0)%Z && (b0 <=? 0xEF)%Z) eqn:H3.
  { destruct (second3 b0 b1 && cont b2) eqn:Hc; [|discriminate].
    apply cons_char_Some in Hs as (s' & Hs' & ->).
    apply andb_true_iff in Hc as [Hc1 Hc2].
    unfold cont in Hc2. bool_to_prop H3. bool_to_prop Hc2.
    destruct (second3_range b0 b1 H3 Hc1) as (Hr & Hlo & Hhi).
    constructor; [|apply (IH t2); [lia|exact Hs']].
    apply is_scalar_of_Z; [lia|].
    destruct (Z.eq_dec b0 0xED%Z) as [->|Hne]; [specialize (Hhi eq_refl); lia|].
    destruct (Z_lt_le_dec b0 0xED%Z); [left; lia|right; lia]. }
  destruct t2 as [|b3 t3]; [discriminate|]. simpl in Hlen.
  destruct ((0xF0 <=? b0)%Z && (b0 <=? 0xF4)%Z) eqn:H4; [|discriminate].
  destruct (second4 b0 b1 && cont b2 && cont b3) eqn:Hc; [|discriminate].
  apply cons_char_Some in Hs as (s' & Hs' & ->).
  apply andb_true_iff in Hc as [Hc Hc3]. apply andb_true_iff in Hc as [Hc1 Hc2].
  unfold cont in Hc2, Hc3. bool_to_prop H4. bool_to_prop Hc2. bool_to_prop Hc3.
  destruct (second4_range b0 b1 H4 Hc1) as (Hr & Hlo & Hhi).
  constructor; [|apply (IH t3); [lia|exact Hs']].
  apply is_scalar_of_Z; [lia|]. right.
  destruct (Z.eq_dec b0 0xF4%Z) as [->|Hne]; [specialize (Hhi eq_refl); lia|].
  destruct (Z.eq_dec b0 0xF0%Z) as [->|Hne0]; [specialize (Hlo eq_refl); lia|lia].
Qed.

Lemma translate_newlines_Forall_bounded (P : N → Prop) n : ∀ s,
  length s ≤ n → P LF → Forall P s → Forall P (translate_newlines s).
Proof.
  induction n as [|n IH]; intros s Hlen HLF Hs.
  { destruct s; [constructor|simpl in Hlen; lia]. }
  destruct s as [|c rest]; [constructor|]. simpl in Hlen.
  inversion Hs as [|? ? Hc Hrest]; subst. cbn [translate_newlines].
  destruct (c =? CR)%N.
  - constructor; [exact HLF|]. destruct rest as [|d rest']; [constructor|].
    inversion Hrest as [|? ? Hd Hrest']; subst. simpl in Hlen.
    destruct (d =? LF)%N; apply IH; auto; simpl; lia.
  - constructor; [exact Hc|]. apply IH; auto; lia.
Qed.

Lemma translate_newlines_no_CR_bounded n : ∀ s,
  length s ≤ n → Forall (fun c => c ≠ CR) (translate_newlines s).
Proof.
  induction n as [|n IH]; intros s Hlen.
  { destruct s; [constructor|simpl in Hlen; lia]. }
  destruct s as [|c rest]; [constructor|]. simpl in Hlen. cbn [translate_newlines].
  destruct (N.eqb_spec c CR) as [->|Hne].
  - constructor; [discriminate|]. destruct rest as [|d rest']; [constructor|].
    simpl in Hlen. destruct (d =? LF)%N; apply IH; simpl; lia.
  - constructor; [exact Hne|]. apply IH. lia.
Qed.

End ReadFacts.

(** X13.  The text read from a file holds only code points that UTF-8
    can encode, and no CR: every line end has been turned into LF. *)
Theorem open_read_text (file : option (list Z)) (content : str) :
  open_read file = Some content →
  Forall (fun c => is_scalar c = true) content ∧ Forall (fun c => c ≠ CR) content.
Proof.
  unfold open_read. destruct file as [bs|]; [|discriminate].
  destruct (decode_utf8 bs) as [s|] eqn:Hs; [|discriminate].
  simpl. intros H. injection H as <-. split.
  - apply (translate_newlines_Forall_bounded _ (length s)); [lia|reflexivity|].
    apply (decode_utf8_scalar_bounded (length bs) bs s); [lia|exact Hs].
  - apply (translate_newlines_no_CR_bounded (length s)). lia.
Qed.

Lemma open_read_text_witness :
  Forall (fun c => is_scalar c = true) [104; 233; 10; 8364]%N
  ∧ Forall (fun c => c ≠ CR) [104; 233; 10; 8364]%N.
Proof.
  apply (open_read_text (Some [0x68; 0xC3; 0xA9; 0x0D; 0x0A; 0xE2; 0x82; 0xAC]%Z)).
  reflexivity.
Defined.

(** X14.  For a file that could be read, the only way [process_file]
    returns no result is that no line of the text begins with
    [requests:] or [http:]: the text of a file can always be encoded, so
    hashing never fails. *)
Theorem read_file_skipped_iff isword lower file_path file content :
  open_read file = Some content →
  (process_file isword lower file_path (Some content) = None
   ↔ ∀ i, ¬ req_match content i).
Proof.
  intros Hread. apply open_read_text in Hread as [Hscalar _].
  pose proof (search_req_spec content) as Hs. unfold process_file.
  destruct (search_req content) as [i|].
  - destruct (condensed_content_scalar content i Hscalar) as [bytes ->].
    split; [discriminate|]. intros H. exfalso. exact (H i (proj1 Hs)).
  - split; [intros _; exact Hs|reflexivity].
Qed.

Lemma read_file_skipped_iff_witness :
  process_file isword_ascii lower_ascii (py "/poc/x.yaml") (Some (py "id: x" ++ [LF]))
  = None
  ↔ ∀ i, ¬ req_match (py "id: x" ++ [LF]) i.
Proof.
  apply (read_file_skipped_iff isword_ascii lower_ascii (py "/poc/x.yaml")
           (Some [0x69; 0x64; 0x3A; 0x20; 0x78; 0x0D; 0x0A]%Z) (py "id: x" ++ [LF])).
  reflexivity.
Defined.

Section RoundTrip.

Ltac arith := Z.div_mod_to_equations; lia.

Ltac is_true :=
  rewrite ?andb_true_iff, ?Z.leb_le, ?Z.ltb_lt; arith.

Ltac is_false :=
  apply not_true_is_false; rewrite ?andb_true_iff, ?Z.leb_le, ?Z.ltb_lt; arith.

Lemma decode_utf8_1 b0 t :
  (0 <= b0 < 0x80)%Z →
  decode_utf8 (b0 :: t) = cons_char b0 (decode_utf8 t).
Proof.
  intros H. cbn [decode_utf8].
  assert ((0 <=? b0)%Z && (b0 <? 0x80)%Z = true) as -> by is_true. reflexivity.
Qed.

Lemma decode_utf8_2 b0 b1 t :
  (0xC2 <= b0 <= 0xDF)%Z → cont b1 = true →
  decode_utf8 (b0 :: b1 :: t)
  = cons_char ((b0 - 0xC0) * 64 + (b1 - 0x80)) (decode_utf8 t).
Proof.
  intros H0 H1. cbn [decode_utf8].
  assert ((0 <=? b0)%Z && (b0 <? 0x80)%Z = false) as -> by is_false.
  assert ((0xC2 <=? b0)%Z && (b0 <=? 0xDF)%Z = true) as -> by is_true.
  rewrite H1. reflexivity.
Qed.

Lemma decode_utf8_3 b0 b1 b2 t :
  (0xE0 <= b0 <= 0xEF)%Z → second3 b0 b1 = true → cont b2 = true →
  decode_utf8 (b0 :: b1 :: b2 :: t)
  = cons_char ((b0 - 0xE0) * 4096 + (b1 - 0x80) * 64 + (b2 - 0x80)) (decode_utf8 t).
Proof.
  intros H0 H1 H2. cbn [decode_utf8].
  assert ((0 <=? b0)%Z && (b0 <? 0x80)%Z = false) as -> by is_false.
  assert ((0xC2 <=? b0)%Z && (b0 <=? 0xDF)%Z = false) as -> by is_false.
  assert ((0xE0 <=? b0)%Z && (b0 <=? 0xEF)%Z = true) as -> by is_true.
  rewrite H1, H2. reflexivity.
Qed.

Lemma decode_utf8_4 b0 b1 b2 b3 t :
  (0xF0 <= b0 <= 0xF4)%Z → second4 b0 b1 = true → cont b2 = true → cont b3 = true →
  decode_utf8 (b0 :: b1 :: b2 :: b3 :: t)
  = cons_char ((b0 - 0xF0) * 262144 + (b1 - 0x80) * 4096 + (b2 - 0x80) * 64
               + (b3 - 0x80)) (decode_utf8 t).
Proof.
  intros H0 H1 H2 H3. cbn [decode_utf8].
  assert ((0 <=? b0)%Z && (b0 <? 0x80)%Z = false) as -> by is_false.
  assert ((0xC2 <=? b0)%Z && (b0 <=? 0xDF)%Z = false) as -> by is_false.
  assert ((0xE0 <=? b0)%Z && (b0 <=? 0xEF)%Z = false) as -> by is_false.
  assert ((0xF0 <=? b0)%Z && (b0 <=? 0xF4)%Z = true) as -> by is_true.
  rewrite H1, H2, H3. reflexivity.
Qed.

Lemma cont_low6 (x : Z) : cont (0x80 + x mod 64) = true.
Proof. unfold cont. is_true. Qed.

Lemma decode_encode_char (c : N) (bs rest : list Z) :
  encode_char c = Some bs →
  decode_utf8 (bs ++ rest) = cons_char (Z.of_N c) (decode_utf8 rest).
Proof.
  unfold encode_char. cbn zeta.
  pose proof (N2Z.is_nonneg c) as Hpos. set (z := Z.of_N c) in *. clearbody z.
  destruct (Z.ltb_spec z 0x80) as [L1|L1].
  { intros H. injection H as <-. cbn [app]. apply decode_utf8_1. lia. }
  destruct (Z.ltb_spec z 0x800) as [L2|L2].
  { intros H. injection H as <-. cbn [app].
    rewrite decode_utf8_2; [f_equal; arith|arith|apply cont_low6]. }
  destruct (Z.ltb_spec z 0x10000) as [L3|L3].
  { destruct ((0xD800 <=? z)%Z && (z <=? 0xDFFF)%Z) eqn:Hsur; [discriminate|].
    assert (¬ (0xD800 <= z <= 0xDFFF)%Z) as Hns.
    { intros [Ha Hb]. apply Z.leb_le in Ha. apply Z.leb_le in Hb.
      rewrite Ha, Hb in Hsur. discriminate. }
    intros H. injection H as <-. cbn [app].
    rewrite decode_utf8_3; [f_equal; arith|arith| |apply cont_low6].
    unfold second3, cont.
    destruct (Z.eqb_spec (0xE0 + z / 4096) 0xE0) as [Q1|Q1];
      [|destruct (Z.eqb_spec (0xE0 + z / 4096) 0xED) as [Q2|Q2]]; is_true. }
  destruct (Z.ltb_spec z 0x110000) as [L4|L4]; [|discriminate].
  intros H. injection H as <-. cbn [app].
  rewrite decode_utf8_4; [f_equal; arith|arith| |apply cont_low6|apply cont_low6].
  unfold second4, cont.
  destruct (Z.eqb_spec (0xF0 + z / 262144) 0xF0) as [Q1|Q1];
    [|destruct (Z.eqb_spec (0xF0 + z / 262144) 0xF4) as [Q2|Q2]]; is_true.
Qed.

End RoundTrip.

(** X15.  Decoding the UTF-8 bytes of a text gives the text back, so
    two different condensed strings are never hashed from the same
    bytes. *)
Theorem decode_encode_utf8 (s : str) (bytes : list Z) :
  encode_utf8 s = Some bytes → decode_utf8 bytes = Some s.
Proof.
  revert bytes. induction s as [|c s IH]; intros bytes; simpl.
  { intros H. injection H as <-. reflexivity. }
  destruct (encode_char c) as [bs|] eqn:Hc; [|discriminate].
  destruct (encode_utf8 s) as [bs'|]; [|discriminate].
  intros H. injection H as <-.
  rewrite (decode_encode_char c bs bs' Hc), (IH bs' eq_refl). simpl.
  rewrite N2Z.id. reflexivity.
Qed.

Lemma decode_encode_utf8_witness :
  decode_utf8 [0x68; 0xC3; 0xA9; 0xE2; 0x82; 0xAC; 0xF0; 0x9F; 0x98; 0x80]%Z
  = Some [104; 233; 8364; 128512]%N.
Proof.
  apply (decode_encode_utf8 [104; 233; 8364; 128512]%N
           [0x68; 0xC3; 0xA9; 0xE2; 0x82; 0xAC; 0xF0; 0x9F; 0x98; 0x80]%Z).
  reflexivity.
Defined.

Section EffectFacts.

Variable isword : char → bool.
Variable lower : str → str.

Lemma try_body_value file_path read :
  process_file isword lower file_path read
  = match try_body isword lower file_path read with
    | Returned res => res
    | Raised => None
    end.
Proof.
  unfold process_file, try_body. destruct read as [content|]; [|reflexivity].
  destruct (search_req content); [|reflexivity].
  destruct (encode_utf8 _); reflexivity.
Qed.

Lemma try_body_read file_path file :
  match open_read file with
  | None => try_body isword lower file_path (open_read file) = Raised
  | Some content =>
      ∃ res, try_body isword lower file_path (open_read file) = Returned res
             ∧ (res = None ↔ search_req content = None)
  end.
Proof.
  destruct (open_read file) as [content|] eqn:Hread; [|reflexivity].
  apply open_read_text in Hread as [Hscalar _]. unfold try_body.
  destruct (search_req content) as [i|].
  - destruct (condensed_content_scalar content i Hscalar) as [bytes ->].
    eexists. split; [reflexivity|]. split; discriminate.
  - exists None. split; [reflexivity|]. split; reflexivity.
Qed.

End EffectFacts.

(** X16.  [process_file] returns the same value with and without its
    [except] branch spelled out.  A file that cannot be read or decoded
    is logged, and with the flag set it is copied to the error directory
    under its base name (or the failure of that copy is logged); a file
    that was read leaves no trace, even when it has no request block and
    the caller counts it as an error. *)
Theorem process_file_io_spec isword lower file_path flag error_dir file archive_ok :
  let out := process_file_io isword lower file_path flag error_dir (open_read file)
               archive_ok in
  fst out = process_file isword lower file_path (open_read file)
  ∧ (snd out = [] ↔ open_read file ≠ None)
  ∧ (open_read file = None →
     fst out = None
     ∧ snd out
       = LogFailure file_path ::
         (if flag then
            if archive_ok
            then [ArchiveCopy file_path (path_join error_dir (basename file_path))]
            else [LogArchiveFailure file_path]
          else [])).
Proof.
  cbn zeta. unfold process_file_io. rewrite try_body_value.
  pose proof (try_body_read isword lower file_path file) as H.
  destruct (open_read file) as [content|].
  - destruct H as (res & -> & _). simpl. split; [reflexivity|].
    split; [split; [discriminate|reflexivity]|discriminate].
  - rewrite H. simpl. split; [reflexivity|].
    split; [split; [discriminate|intros Hn; contradiction]|auto].
Qed.

Section MainFacts.

Variable isword : char → bool.
Variable lower : str → str.

Lemma filter_length_perm {A} (f : A → bool) (l l' : list A) :
  l ≡ₚ l' → length (List.filter f l) = length (List.filter f l').
Proof.
  induction 1 as [|x l l' _ IH|x y l|l l' l'' _ IH1 _ IH2]; simpl.
  - reflexivity.
  - destruct (f x); simpl; congruence.
  - destruct (f x), (f y); reflexivity.
  - congruence.
Qed.

Lemma out_cases flag error_dir file_path file archive_ok :
  let out := process_file_io isword lower file_path flag error_dir (open_read file)
               archive_ok in
  (open_read file = None ∧ fst out = None
   ∧ length (List.filter is_log_failure (snd out)) = 1)
  ∨ (∃ content, open_read file = Some content ∧ search_req content = None
                ∧ fst out = None ∧ snd out = [])
  ∨ (∃ content i r, open_read file = Some content ∧ search_req content = Some i
                    ∧ fst out = Some r ∧ snd out = []).
Proof.
  cbn zeta. unfold process_file_io.
  pose proof (try_body_read isword lower file_path file) as H.
  destruct (open_read file) as [content|].
  - right. destruct H as (res & -> & Hres).
    destruct (search_req content) as [i|] eqn:Hs.
    + right. destruct res as [r|].
      * exists content, i, r. auto.
      * destruct Hres as [Hres _]. discriminate (Hres eq_refl).
    + left. destruct Hres as [_ Hres]. rewrite (Hres eq_refl).
      exists content. auto.
  - left. rewrite H. split; [reflexivity|]. split; [reflexivity|].
    destruct flag; [destruct archive_ok|]; reflexivity.
Qed.

Lemma outs_failures flag error_dir fs archive_ok (paths : list str) :
  let out := fun f => process_file_io isword lower f flag error_dir (open_read (fs f))
                        (archive_ok f) in
  failures (List.map fst (List.map out paths))
  = unreadable fs paths + without_block fs paths
  ∧ length (List.filter is_log_failure (List.concat (List.map snd (List.map out paths))))
    = unreadable fs paths.
Proof.
  cbn zeta. unfold failures, unreadable, without_block.
  induction paths as [|p paths [IH1 IH2]]; [split; reflexivity|].
  cbn [List.map List.filter List.concat].
  rewrite List.filter_app, length_app, IH2.
  destruct (out_cases flag error_dir p (fs p) (archive_ok p))
    as [(Hread & Hfst & Hlog)|[(content & Hread & Hs & Hfst & Hsnd)
       |(content & i & r & Hread & Hs & Hfst & Hsnd)]];
    rewrite Hfst; try rewrite Hsnd; try rewrite Hlog; rewrite Hread; try rewrite Hs;
    cbn [length List.filter]; rewrite ?IH1; split; lia.
Qed.

End MainFacts.

(** X17.  When [main] runs the loop, every collected file is counted
    once whatever the order of completion: the five counters add up to
    the number of collected files, and the error count is the number of
    files that could not be read, each of which is logged once, plus the
    number of files that were read but hold no request block, which are
    not logged. *)
Theorem main_accounting isword lower a script_dir walk fs archive_ok schedule s events :
  (∀ paths, schedule paths ≡ₚ paths) →
  main isword lower a script_dir walk fs archive_ok schedule = (Finished s, events) →
  total (counters s) = length (collect walk)
  ∧ error (counters s)
    = unreadable fs (collect walk) + without_block fs (collect walk)
  ∧ length (List.filter is_log_failure events) = unreadable fs (collect walk).
Proof.
  intros Hsched. unfold main. cbn zeta.
  pose proof (Hsched (collect walk)) as Hperm.
  destruct (collect walk) as [|p paths] eqn:Hcollect; [discriminate|].
  destruct (workers a <=? 0)%Z; [discriminate|].
  intros H. injection H as <- <-.
  destruct (outs_failures isword lower (collect_errors a) (error_dir_of a script_dir)
              fs archive_ok (schedule (p :: paths))) as [Hf He].
  destruct (drain_counters (exclude_severity a) (output a) initial
              (List.map fst
                 (List.map (fun f => process_file_io isword lower f (collect_errors a)
                                       (error_dir_of a script_dir) (open_read (fs f))
                                       (archive_ok f)) (schedule (p :: paths)))))
    as (_ & Herr & Htot).
  unfold run. simpl in Herr, Htot. rewrite Herr, Htot, Hf, He, !length_map.
  unfold unreadable, without_block.
  rewrite !(filter_length_perm _ _ _ Hperm), (Permutation_length Hperm). auto.
Qed.

Lemma main_accounting_witness :
  total (counters (run [py "info"] (py "/kept") (List.map fst sample_outs)))
  = length (collect sample_walk)
  ∧ error (counters (run [py "info"] (py "/kept") (List.map fst sample_outs)))
    = unreadable sample_fs (collect sample_walk)
      + without_block sample_fs (collect sample_walk)
  ∧ length (List.filter is_log_failure (List.concat (List.map snd sample_outs)))
    = unreadable sample_fs (collect sample_walk).
Proof.
  apply (main_accounting isword_ascii lower_ascii sample_args (py "/opt/tool")
           sample_walk sample_fs (fun _ => true) (@rev str)).
  - intros paths. symmetry. apply Permutation_rev.
  - reflexivity.
Defined.
